(** * Positional encodings of renonet: a shallow embedding of
    [lib/positional_encoding.py]

    The development follows the Python module function by function:
    [get_self_loop_attr], [add_node_attr], [AddLaplacianEigenvectorPE],
    [AddRandomWalkPE], [compute_pos_enc], [pe_path_from] and [pos_enc]. Of
    [nn/models/models.py] it covers the level boundaries and the attention
    mask of [Transformer].

    Conventions.
    - Floating-point values are idealised as exact rationals ([Q], compared
      with [==]); the only non-finite values the module can create itself,
      those of a division by zero in the min-max normalisation, are kept as
      the IEEE outcomes of [np_div].
    - A two-dimensional array is the list of its rows.
    - A PyG [Data] object is its attribute store, a finite map from
      attribute names to values; a transform that writes an attribute
      returns the updated store.
    - Library routines whose result the module only passes on (the ARPACK
      eigen-solvers, the Laplacian construction, the node2vec trainer, the
      global random generator) are variables of the sections below.
    - Status lines printed by [compute_pos_enc] and its timers are not
      modelled. *)

From Stdlib Require Import QArith Qminmax Qabs Lqa ZArith Lia List String Ascii.
From Stdlib Require Import DecimalString Sorting.Sorted Sorting.Permutation.
From stdpp Require Import base strings gmap list.

Local Open Scope nat_scope.

(** ** Exceptions and results *)

Inductive exn :=
| AssertionError
| NameError
| IndexError
| ValueError
| TypeError
| RuntimeError
| FileNotFoundError
| ArpackError.

Inductive result (A : Type) :=
| Ok (a : A)
| Raise (e : exn).
Arguments Ok {A} a.
Arguments Raise {A} e.

Definition rbind {A B} (r : result A) (k : A -> result B) : result B :=
  match r with
  | Ok a => k a
  | Raise e => Raise e
  end.

Declare Scope result_scope.
Delimit Scope result_scope with result.
Notation "'let?' x ':=' c 'in' k" := (rbind c (fun x => k))
  (at level 10, x pattern, c at level 100, k at level 200) : result_scope.
Local Open Scope result_scope.

Definition of_option {A} (e : exn) (o : option A) : result A :=
  match o with
  | Some a => Ok a
  | None => Raise e
  end.

(** ** Vectors and index arithmetic *)

Definition sum_list_Q (l : list Q) : Q := fold_right Qplus 0%Q l.

(** [sumQ f n] is the sum of [f 0 .. f (n-1)]. *)
Definition sumQ (f : nat -> Q) (n : nat) : Q := sum_list_Q (map f (seq 0 n)).

(** Boolean masking, [t[mask]]. *)
Definition mask_select {A} (t : list A) (mask : list bool) : list A :=
  map fst (List.filter snd (combine t mask)).

(** Indexing with an index tensor, [t[index]]: out of range raises. *)
Fixpoint index_select {A} (t : list A) (index : list nat) : result (list A) :=
  match index with
  | [] => Ok []
  | i :: index' =>
      let? x := of_option IndexError (t !! i) in
      let? xs := index_select t index' in
      Ok (x :: xs)
  end.

(** Assignment through an index tensor, [t[index] = src], element by
    element in order: a later write to the same position wins, and an index
    out of range raises. *)
Fixpoint index_put {A} (t : list A) (index : list nat) (src : list A)
  : result (list A) :=
  match index, src with
  | i :: index', v :: src' =>
      if i <? length t then index_put (<[i := v]> t) index' src'
      else Raise IndexError
  | _, _ => Ok t
  end.

(** [scatter(src, index, dim_size=n, reduce='sum')]: entry [u] is the sum of
    the [src] values whose index is [u]. *)
Definition scatter_sum (src : list Q) (index : list nat) (n : nat) : list Q :=
  map (fun u => sum_list_Q (mask_select src (map (Nat.eqb u) index))) (seq 0 n).

(** [t.clamp(min=m)]. *)
Definition clamp_min (m x : Q) : Q := if Qle_bool m x then x else m.

Fixpoint list_max_nat (l : list nat) : nat :=
  match l with
  | [] => 0
  | x :: l' => Nat.max x (list_max_nat l')
  end.

(** [maybe_num_nodes(edge_index, num_nodes)] of torch_geometric. *)
Definition maybe_num_nodes (edge_index : list (nat * nat)) (num_nodes : option nat)
  : nat :=
  match num_nodes with
  | Some n => n
  | None =>
      match edge_index with
      | [] => 0
      | _ => S (list_max_nat (map fst edge_index ++ map snd edge_index))
      end
  end.

(** ** Square tensors, strided or sparse

    A [size x size] torch tensor is its layout, its size and its entries. *)

Inductive layout := Strided | SparseCsr.

Record tensor := mkTensor {
  t_layout : layout;
  t_size : nat;
  t_at : nat -> nat -> Q
}.

Definition is_torch_sparse_tensor (t : tensor) : bool :=
  match t_layout t with
  | SparseCsr => true
  | Strided => false
  end.

(** [adj = torch.zeros((N, N)); adj[row, col] = value]. *)
Fixpoint dense_index_put (f : nat -> nat -> Q) (edges : list (nat * nat))
  (value : list Q) : nat -> nat -> Q :=
  match edges, value with
  | (r, c) :: edges', v :: value' =>
      dense_index_put
        (fun i j => if (i =? r) && (j =? c) then v else f i j) edges' value'
  | _, _ => f
  end.

Definition dense_adj (edge_index : list (nat * nat)) (value : list Q) (N : nat)
  : tensor :=
  mkTensor Strided N (dense_index_put (fun _ _ => 0%Q) edge_index value).

(** [to_torch_csr_tensor(edge_index, value, size)]: the edge list is
    coalesced, the values of parallel edges are added. *)
Definition to_torch_csr_tensor (edge_index : list (nat * nat)) (value : list Q)
  (N : nat) : tensor :=
  mkTensor SparseCsr N
    (fun i j =>
       sum_list_Q
         (mask_select value
            (map (fun e : nat * nat => (fst e =? i) && (snd e =? j)) edge_index))).

(** [a @ b]: the product of two sparse tensors is sparse, a product with a
    strided factor is strided. *)
Definition matmul (a b : tensor) : tensor :=
  mkTensor
    (match t_layout a, t_layout b with
     | SparseCsr, SparseCsr => SparseCsr
     | _, _ => Strided
     end)
    (t_size a)
    (fun i j => sumQ (fun k => (t_at a i k * t_at b k j)%Q) (t_size a)).

(** [to_edge_index(t)]: the stored (nonzero) entries of a sparse tensor in
    row-major order, as an edge index and its values. *)
Definition to_edge_index (t : tensor) : list (nat * nat) * list Q :=
  let stored :=
    List.filter (fun e : nat * nat => negb (Qeq_bool (t_at t (fst e) (snd e)) 0))
      (list_prod (seq 0 (t_size t)) (seq 0 (t_size t))) in
  (stored, map (fun e : nat * nat => t_at t (fst e) (snd e)) stored).

(** ** [get_self_loop_attr] (lines 91-124) *)

Definition get_self_loop_attr (edge_index : list (nat * nat))
  (edge_attr : option (list Q)) (num_nodes : option nat) : result (list Q) :=
  let loop_mask := map (fun e : nat * nat => fst e =? snd e) edge_index in
  let loop_index := mask_select (map fst edge_index) loop_mask in
  let loop_attr :=
    match edge_attr with
    | Some a => mask_select a loop_mask
    | None => map (fun _ => 1%Q) loop_index
    end in
  let num_nodes := maybe_num_nodes edge_index num_nodes in
  let full_loop_attr := repeat 0%Q num_nodes in
  index_put full_loop_attr loop_index loop_attr.

(** ** The [Data] object and [add_node_attr] (lines 126-137) *)

Inductive attr :=
| AIndex (edge_index : list (nat * nat))
| AVec (v : list Q)
| ATensor (m : list (list Q))
| AStr (s : string).

Definition data_edge_index (data : gmap string attr) : option (list (nat * nat)) :=
  match data !! "edge_index"%string with
  | Some (AIndex ei) => Some ei
  | _ => None
  end.

Definition data_edge_weight (data : gmap string attr) : option (list Q) :=
  match data !! "edge_weight"%string with
  | Some (AVec w) => Some w
  | _ => None
  end.

(** [data.num_nodes]: read off the node features when there are any, else
    inferred from the largest index of the edge index. *)
Definition data_num_nodes (data : gmap string attr) : option nat :=
  match data !! "x"%string with
  | Some (ATensor m) => Some (length m)
  | Some (AVec v) => Some (length v)
  | _ =>
      match data_edge_index data with
      | Some ei => Some (maybe_num_nodes ei None)
      | None => None
      end
  end.

Definition data_num_edges (data : gmap string attr) : nat :=
  match data_edge_index data with
  | Some ei => length ei
  | None => 0
  end.

(** [torch.cat([x, value], dim=-1)] on two-dimensional tensors, and
    [np.concatenate([x, value], axis=-1)]: the row counts must agree. *)
Definition cat_last {A} (x value : list (list A)) : result (list (list A)) :=
  if length x =? length value
  then Ok (map (fun p : list A * list A => fst p ++ snd p) (combine x value))
  else Raise ValueError.

Definition add_node_attr (data : gmap string attr) (value : list (list Q))
  (attr_name : option string) : result (gmap string attr) :=
  match attr_name with
  | None =>
      match data !! "x"%string with
      | Some a =>
          let? x :=
            match a with
            | AVec v => Ok (map (fun e => [e]) v)
            | ATensor m => Ok m
            | _ => Raise TypeError
            end in
          let? x' := cat_last x value in
          Ok (<["x"%string := ATensor x']> data)
      | None => Ok (<["x"%string := ATensor value]> data)
      end
  | Some name => Ok (<[name := ATensor value]> data)
  end.

(** ** [AddRandomWalkPE] (lines 203-257) *)

Module AddRandomWalkPE.

Definition default_attr_name : option string := Some "random_walk_pe"%string.

(** Lines 230-235: the edge weights (ones when [data.edge_weight] is
    [None]) are summed per source node, the sums are clamped to at least 1
    and read back per edge; the transition value is the reciprocal. *)
Definition edge_value (data : gmap string attr) : list Q :=
  match data_edge_weight data with
  | None => repeat 1%Q (data_num_edges data)
  | Some w => w
  end.

Definition transition_value (data : gmap string attr) (row : list nat) (N : nat)
  : result (list Q) :=
  let value := edge_value data in
  let? value := index_select (map (clamp_min 1) (scatter_sum value row N)) row in
  Ok (map (fun d => (1 / d)%Q) value).

(** Lines 237-241: [adj] and [loop_index] are assigned in the branch for
    small graphs ([None] stands for an unbound name); [adj] is then assigned
    again, for every [N]. *)
Definition transition_operator (edge_index : list (nat * nat)) (value : list Q)
  (N : nat) : tensor * option (list nat) :=
  let adj := if N <=? 2000 then Some (dense_adj edge_index value N) else None in
  let loop_index := if N <=? 2000 then Some (seq 0 N) else None in
  let adj := to_torch_csr_tensor edge_index value N in
  (adj, loop_index).

(** [out[loop_index, loop_index]] on a strided tensor. *)
Fixpoint diag_select (out : tensor) (loop_index : list nat) : result (list Q) :=
  match loop_index with
  | [] => Ok []
  | i :: rest =>
      if i <? t_size out
      then let? xs := diag_select out rest in Ok (t_at out i i :: xs)
      else Raise IndexError
  end.

(** Lines 243-246. *)
Definition get_pe (N : nat) (loop_index : option (list nat)) (out : tensor)
  : result (list Q) :=
  if is_torch_sparse_tensor out then
    let '(edge_index, edge_attr) := to_edge_index out in
    get_self_loop_attr edge_index (Some edge_attr) (Some N)
  else
    let? loop_index := of_option NameError loop_index in
    diag_select out loop_index.

(** Lines 250-252: [n] further rounds of [out = out @ adj]. *)
Fixpoint walk (n N : nat) (loop_index : option (list nat)) (adj out : tensor)
  (pe_list : list (list Q)) : result (list (list Q)) :=
  match n with
  | 0 => Ok pe_list
  | S n' =>
      let out := matmul out adj in
      let? pe := get_pe N loop_index out in
      walk n' N loop_index adj out (pe_list ++ [pe])
  end.

(** [torch.stack(pe_list, dim=-1)]: the vectors become the columns. *)
Definition stack_last (pe_list : list (list Q)) : result (list (list Q)) :=
  match pe_list with
  | [] => Raise RuntimeError
  | v :: _ =>
      if forallb (fun v' => length v' =? length v) pe_list
      then Ok (map (fun i => map (fun v' => nth i v' 0%Q) pe_list)
                 (seq 0 (length v)))
      else Raise RuntimeError
  end.

(** Lines 225-254: the encoding, before it is attached to [data]. A walk
    length below 1 runs no further round, as [range] of a negative number
    is empty. *)
Definition random_walk_pe (walk_length : nat) (data : gmap string attr)
  : result (list (list Q)) :=
  let? edge_index := of_option AssertionError (data_edge_index data) in
  let row := map fst edge_index in
  let? N := of_option AssertionError (data_num_nodes data) in
  let? value := transition_value data row N in
  let '(adj, loop_index) := transition_operator edge_index value N in
  let out := adj in
  let? pe0 := get_pe N loop_index out in
  let? pe_list := walk (walk_length - 1) N loop_index adj out [pe0] in
  stack_last pe_list.

Definition forward (walk_length : nat) (attr_name : option string)
  (data : gmap string attr) : result (gmap string attr) :=
  let? pe := random_walk_pe walk_length data in
  add_node_attr data pe attr_name.

End AddRandomWalkPE.

(** ** [Transformer] of [nn/models/models.py]: the level boundaries of
    [__init__] (lines 153-156) and [get_attn_mask] (lines 170-174) *)

Module Transformer.

(** Line 165: [self.eps = 1e-15]. *)
Definition eps : Q := 1 # 1000000000000000.





(** Lines 170-174: a node takes part in attention when the absolute value
    of the sum of its features exceeds [eps]; the mask is the outer product
    of that index with itself. *)
Definition get_attn_mask (x : list (list Q)) : list (list bool) :=
  let index := map (fun r => negb (Qle_bool (Qabs (sum_list_Q r)) eps)) x in
  map (fun a => map (fun b => a && b) index) index.

End Transformer.

(** ** The world of the pipeline: files, generator, library calls *)

(** A float as numpy produces it. *)
Inductive npfloat :=
| Fin (q : Q)
| PInf
| NInf
| NaN.

(** A parquet table, as [to_numpy] returns it. The adjacency source is a
    table of non-negative integers; the encoding is a table of floats. *)
Inductive table :=
| TInt (t : list (list nat))
| TFloat (t : list (list npfloat)).

Inductive which := SR | SA.

Inductive event :=
| EvEigSolver (is_undirected : bool) (k : nat) (w : which)
| EvRandint (n : nat)
| EvRandomWalk (walk_length : nat)
| EvNode2Vec (dim : nat)
| EvReadParquet (path : string)
| EvToParquet (path : string).

Record world := mkWorld {
  fs : gmap string table;
  rng : nat;
  calls : list event
}.

Definition log (e : event) (w : world) : world :=
  mkWorld (fs w) (rng w) (calls w ++ [e]).

(** An encoder call: one of the three events an encoder leaves. *)
Definition is_encoder_call (e : event) : bool :=
  match e with
  | EvEigSolver _ _ _ | EvRandomWalk _ | EvNode2Vec _ => true
  | _ => false
  end.

Definition is_solver_call (e : event) : bool :=
  match e with
  | EvEigSolver _ _ _ => true
  | _ => false
  end.

(** ** numpy helpers of the assembler *)

Definition np_div (a b : Q) : npfloat :=
  if Qeq_bool b 0 then
    if Qeq_bool a 0 then NaN else if Qle_bool 0 a then PInf else NInf
  else Fin (a / b).

Definition np_size {A} (x : list (list A)) : nat :=
  length (concat x).

Definition np_min (x : list (list Q)) : Q :=
  match concat x with
  | [] => 0%Q
  | e :: es => fold_left Qmin es e
  end.

Definition np_max (x : list (list Q)) : Q :=
  match concat x with
  | [] => 0%Q
  | e :: es => fold_left Qmax es e
  end.

(** [np.where(A)]: the positions of the nonzero entries, row by row. *)
Definition np_where (A : list (list nat)) : list (nat * nat) :=
  concat
    (map (fun ir : nat * list nat =>
            map (fun jx : nat * nat => (fst ir, fst jx))
              (List.filter (fun jx : nat * nat => negb (snd jx =? 0))
                 (combine (seq 0 (length (snd ir))) (snd ir))))
       (combine (seq 0 (length A)) A)).

(** [.T] of a table. *)
Definition transpose {A} (d : A) (t : list (list A)) : list (list A) :=
  map (fun j => map (fun r => nth j r d) t) (seq 0 (length (hd [] t))).

(** [table.to_numpy()] read as a float matrix. *)
Definition to_numpy (t : table) : list (list npfloat) :=
  match t with
  | TFloat m => m
  | TInt m => map (map (fun n => Fin (inject_Z (Z.of_nat n)))) m
  end.

(** ** Paths: [pe_path_from] (lines 303-307) *)

Record Args := mkArgs {
  adj_path : string;
  pe_path : string;
  pe_size : Z
}.

(** [s.split(sep)] for a one-character separator. *)
Fixpoint split (sep : ascii) (s : string) : list string :=
  match s with
  | EmptyString => [EmptyString]
  | String c s' =>
      if Ascii.eqb c sep then EmptyString :: split sep s'
      else
        match split sep s' with
        | [] => [String c EmptyString]
        | h :: t => String c h :: t
        end
  end.

(** [sep.join(l)]. *)
Fixpoint join (sep : string) (l : list string) : string :=
  match l with
  | [] => EmptyString
  | [x] => x
  | x :: l' => (x ++ sep ++ join sep l')%string
  end.

(** [str(n)] of an int. *)
Definition str_of_int (n : Z) : string := NilZero.string_of_int (Z.to_int n).

Definition pe_path_from (args : Args) : string :=
  let base_path :=
    (join "/" (removelast (split "/" (adj_path args))) ++ "/")%string in
  let pe_path := (base_path ++ "pe_" ++ "dim" ++ str_of_int (pe_size args) ++ "_")%string in
  let pe_path :=
    (pe_path ++ join "_" (tail (split "_" (List.last (split "/" (adj_path args)) EmptyString))))%string in
  pe_path.


(** ** A small instance of the library routines

    Concrete stand-ins for the solvers, the generator and the trainer, with
    which the pipeline can be run on small graphs. *)

Module Instance.

Definition Laplacian : Type := list (nat * nat) * nat.

Definition get_laplacian (edge_index : list (nat * nat)) (num_nodes : nat)
  : Laplacian := (edge_index, num_nodes).

(** Eigenvalues in descending order [k, k-1, .., 1]; the entry of node [i]
    in column [j] is [i + 2 j]. *)
Definition eigs (L : Laplacian) (k : nat) (wh : which)
  : result (list (Q * Q) * list (list (Q * Q))) :=
  Ok (map (fun j => (inject_Z (Z.of_nat (k - j)), 0%Q)) (seq 0 k),
      map (fun i => map (fun j => (inject_Z (Z.of_nat (i + 2 * j)), 0%Q)) (seq 0 k))
        (seq 0 (snd L))).

Definition eigsh := eigs.

Definition coin (i : nat) : bool := Nat.even i.

Definition Node2Vec_init (edge_index : list (nat * nat)) (dim g : nat)
  : list (list Q) * nat :=
  (map (fun i => map (fun j => inject_Z (Z.of_nat (i * dim + j + g))) (seq 0 dim))
     (seq 0 (maybe_num_nodes edge_index None)),
   g + 1).

Definition train_epoch (edge_index : list (nat * nat)) (model : list (list Q))
  (g : nat) : list (list Q) * nat :=
  (map (map (fun x => (x + 1)%Q)) model, g + 1).

(** A cycle on four nodes as an edge-index table (one row per edge on
    disk), and a path on three nodes as a dense adjacency table. *)
Definition cycle4 : list (list nat) := [[0; 1]; [1; 2]; [2; 3]; [3; 0]].
Definition path3 : list (list nat) := [[0; 1; 0]; [1; 0; 1]; [0; 1; 0]].
Definition triangle : list (list nat) := [[0; 1]; [1; 2]; [2; 0]].

Definition graph (edge_index : list (nat * nat)) : gmap string attr :=
  <["edge_index"%string := AIndex edge_index]> ∅.

Definition world0 : world :=
  mkWorld
    (<["g/adj_c4.parquet"%string := TInt cycle4]>
       (<["g/adj_p3.parquet"%string := TInt path3]>
          (<["g/adj_tri.parquet"%string := TInt triangle]> ∅)))
    0 [].

(** Arguments whose [pe_path] is the path [pe_path_from] derives, and
    arguments whose [pe_path] is another one. *)
Definition args_c4 : Args :=
  mkArgs "g/adj_c4.parquet" "g/pe_dim3_c4.parquet" 3.
Definition args_other : Args := mkArgs "g/adj_c4.parquet" "g/pe.parquet" 1.
Definition args_tri : Args := mkArgs "g/adj_tri.parquet" "g/pe.parquet" 1.

(** [world0] with a table already at the path derived for [args_other]. *)
Definition world1 : world :=
  mkWorld (<["g/pe_dim1_c4.parquet"%string := TFloat [[Fin 7]]]> (fs world0)) 0 [].

End Instance.

(** ** The pipeline *)

Section Pipeline.

(** The symmetric-normalised Laplacian as scipy receives it
    ([get_laplacian] followed by [to_scipy_sparse_matrix]). *)
Variable Laplacian : Type.
Variable get_laplacian : list (nat * nat) -> nat -> Laplacian.

(** [scipy.sparse.linalg.eigs] and [eigsh]: [k] eigenvalues and the matrix
    whose columns are their eigenvectors, complex numbers as pairs; a
    solver that does not converge raises. *)
Variable eigs eigsh :
  Laplacian -> nat -> which -> result (list (Q * Q) * list (list (Q * Q))).

(** The [i]-th draw of [torch.randint(0, 2, ...)] from the global generator. *)
Variable coin : nat -> bool.

(** [Node2Vec(...)] with its random initial embedding, and one pass of
    [train()] over the loader; both draw from the global generator. *)
Variable Node2Vec_init : list (nat * nat) -> nat -> nat -> list (list Q) * nat.
Variable train_epoch :
  list (nat * nat) -> list (list Q) -> nat -> list (list Q) * nat.

(** *** [AddLaplacianEigenvectorPE.__call__] (lines 173-200) *)

(** numpy orders complex numbers by real part, then imaginary part. *)
Definition cle (a b : Q * Q) : bool :=
  if Qeq_bool (fst a) (fst b) then Qle_bool (snd a) (snd b)
  else Qle_bool (fst a) (fst b).

Fixpoint insert_key (p : (Q * Q) * nat) (l : list ((Q * Q) * nat))
  : list ((Q * Q) * nat) :=
  match l with
  | [] => [p]
  | q :: l' => if cle (fst p) (fst q) then p :: l else q :: insert_key p l'
  end.

(** [eig_vals.argsort()]: the indices in ascending order of their values. *)
Definition argsort (vals : list (Q * Q)) : list nat :=
  map snd (fold_right insert_key [] (combine vals (seq 0 (length vals)))).

(** [torch.randint(0, 2, (n,))]. *)
Definition randint (n : nat) (w : world) : list Q * world :=
  (map (fun i => if coin (rng w + i) then 1%Q else 0%Q) (seq 0 n),
   log (EvRandint n) (mkWorld (fs w) (rng w + n) (calls w))).

(** [pe *= sign]: [sign] is broadcast over the rows of [pe]. *)
Definition imul_rows (pe : list (list Q)) (sign : list Q) : result (list (list Q)) :=
  let mul_row (r : list Q) : result (list Q) :=
    if length r =? length sign
    then Ok (map (fun p : Q * Q => (fst p * snd p)%Q) (combine r sign))
    else
      match sign with
      | [s] => Ok (map (fun x => (x * s)%Q) r)
      | _ => Raise RuntimeError
      end in
  fold_right
    (fun r acc => let? r' := mul_row r in let? acc' := acc in Ok (r' :: acc'))
    (Ok []) pe.

(** Column selection [m[:, idx]]. *)
Definition select_columns {A} (m : list (list A)) (idx : list nat)
  : result (list (list A)) :=
  fold_right
    (fun r acc =>
       let? r' := index_select r idx in let? acc' := acc in Ok (r' :: acc'))
    (Ok []) m.

Definition AddLaplacianEigenvectorPE_call (k : nat) (attr_name : option string)
  (is_undirected : bool) (data : gmap string attr) (w : world)
  : result (gmap string attr * world) :=
  let eig_fn := if negb is_undirected then eigs else eigsh in
  let? num_nodes := of_option TypeError (data_num_nodes data) in
  let? edge_index := of_option TypeError (data_edge_index data) in
  let L := get_laplacian edge_index num_nodes in
  let wh := if negb is_undirected then SR else SA in
  let w := log (EvEigSolver is_undirected (k + 1) wh) w in
  let? (eig_vals, eig_vecs) := eig_fn L (k + 1) wh in
  let? eig_vecs := select_columns eig_vecs (argsort eig_vals) in
  let eig_vecs := map (map fst) eig_vecs in
  let pe := map (fun r => firstn k (skipn 1 r)) eig_vecs in
  let '(bits, w) := randint k w in
  let sign := map (fun b => (-1 + 2 * b)%Q) bits in
  let? pe := imul_rows pe sign in
  let? data := add_node_attr data pe attr_name in
  Ok (data, w).

(** What [__call__] computes, given the eigenpairs the solver returned. *)
Definition laplacian_pe (k : nat) (g : nat)
  (eig_vals : list (Q * Q)) (eig_vecs : list (list (Q * Q))) : list (list Q) :=
  map (fun r =>
         map (fun p : Q * Q => (fst p * snd p)%Q)
           (combine
              (firstn k (skipn 1
                 (map fst (map (fun i => nth i r (0%Q, 0%Q)) (argsort eig_vals)))))
              (map (fun b => (-1 + 2 * b)%Q)
                 (map (fun i => if coin (g + i) then 1%Q else 0%Q) (seq 0 k)))))
    eig_vecs.

Definition laplacian_attr_name : option string :=
  Some "laplacian_eigenvector_pe"%string.

(** *** [node2vec] (lines 37-89) *)

Fixpoint train_loop (epochs : nat) (edge_index : list (nat * nat))
  (model : list (list Q)) (g : nat) : list (list Q) * nat :=
  match epochs with
  | 0 => (model, g)
  | S n =>
      let '(model', g') := train_epoch edge_index model g in
      train_loop n edge_index model' g'
  end.

(** The trained model is its embedding table. *)
Definition node2vec (data : gmap string attr) (dim : nat) (w : world)
  : result (list (list Q) * world) :=
  let? edge_index := of_option TypeError (data_edge_index data) in
  let '(model, g) := Node2Vec_init edge_index dim (rng w) in
  let '(model, g) := train_loop 21 edge_index model g in
  Ok (model, log (EvNode2Vec dim) (mkWorld (fs w) g (calls w))).

(** *** [compute_pos_enc] (lines 260-301) *)

(** Line 262: the table at [adj_path], transposed. The adjacency source is
    an integer table; a float table at the path is outside the model and
    raises. *)
Definition read_adjacency (path : string) (w : world)
  : result (list (list nat) * world) :=
  match fs w !! path with
  | Some (TInt t) => Ok (transpose 0 t, log (EvReadParquet path) w)
  | Some (TFloat _) => Raise TypeError
  | None => Raise FileNotFoundError
  end.

(** Line 299: the matrix is written as a table at [path]. *)
Definition to_parquet (pe : list (list npfloat)) (path : string) (w : world)
  : world :=
  log (EvToParquet path) (mkWorld (<[path := TFloat pe]> (fs w)) (rng w) (calls w)).

Definition get_tensor_attr (data : gmap string attr) (name : string)
  : result (list (list Q)) :=
  match data !! name with
  | Some (ATensor m) => Ok m
  | _ => Raise AssertionError
  end.

(** Line 293: the min-max normalisation, the identity on an array without
    elements. *)
Definition minmax (x : list (list Q)) : list (list npfloat) :=
  if 0 <? np_size x
  then map (map (fun e => np_div (e - np_min x) (np_max x - np_min x))) x
  else map (map Fin) x.

(** [np.concatenate(pe, axis=-1)]. *)
Fixpoint concatenate {A} (pe : list (list (list A))) : result (list (list A)) :=
  match pe with
  | [] => Raise ValueError
  | [x] => Ok x
  | x :: rest => let? y := concatenate rest in cat_last x y
  end.

(** Lines 262-265: the adjacency table is an edge index when its first
    dimension is 2, a dense adjacency matrix otherwise. The keyword
    [device] becomes an attribute of the [Data] object. *)
Definition edge_index_of (A : list (list nat)) : list (nat * nat) :=
  if length A =? 2 then combine (nth 0 A []) (nth 1 A []) else np_where A.

Definition make_data (edge_index : list (nat * nat)) (device : string)
  : gmap string attr :=
  <["device"%string := AStr device]>
    (<["edge_index"%string := AIndex edge_index]> ∅).

(** A block is [None] while its name is unbound: for a negative size
    neither branch assigns it. The transforms work on the one [data]
    object: what the Laplacian transform attaches is there when the next
    encoder runs; the random-walk transform is applied through
    [BaseTransform.__call__] to a shallow copy. *)

(** Lines 269-273. *)
Definition spectral_block (le_size : Z) (A : list (list nat))
  (data : gmap string attr) (w : world)
  : result (option (list (list Q)) * gmap string attr * world) :=
  if (0 <? le_size)%Z then
    let? (data, w) :=
      AddLaplacianEigenvectorPE_call (Z.to_nat le_size)
        laplacian_attr_name false data w in
    let? pe := get_tensor_attr data "laplacian_eigenvector_pe" in
    Ok (Some pe, data, w)
  else if (le_size =? 0)%Z then Ok (Some (repeat [] (length A)), data, w)
  else Ok (None, data, w).

(** Lines 277-282. *)
Definition diffusion_block (rw_size : Z) (A : list (list nat))
  (data : gmap string attr) (w : world)
  : result (option (list (list Q)) * world) :=
  if (0 <? rw_size)%Z then
    let w := log (EvRandomWalk (Z.to_nat rw_size)) w in
    let? data_rw :=
      AddRandomWalkPE.forward (Z.to_nat rw_size)
        AddRandomWalkPE.default_attr_name data in
    let? pe := get_tensor_attr data_rw "random_walk_pe" in
    Ok (Some pe, w)
  else if (rw_size =? 0)%Z then Ok (Some (repeat [] (length A)), w)
  else Ok (None, w).

(** Lines 286-290. *)
Definition learned_block (n2v_size : Z) (A : list (list nat))
  (data : gmap string attr) (w : world)
  : result (option (list (list Q)) * world) :=
  if (0 <? n2v_size)%Z then
    let? (model, w) := node2vec data (Z.to_nat n2v_size) w in
    let? num_nodes := of_option TypeError (data_num_nodes data) in
    let? pe := index_select model (seq 0 num_nodes) in
    Ok (Some pe, w)
  else if (n2v_size =? 0)%Z then Ok (Some (repeat [] (length A)), w)
  else Ok (None, w).

(** Lines 292-295. The parameter [norm] of [compute_pos_enc] is not read:
    line 293 binds the name again. *)
Definition assemble (pe_le pe_n2v : option (list (list Q)))
  : result (list (list npfloat)) :=
  let? pe_le := of_option NameError pe_le in
  let? pe_n2v := of_option NameError pe_n2v in
  let pe := [pe_le; pe_n2v] in
  let norm := fun x : list (list Q) => minmax x in
  let pe := map norm pe in
  concatenate pe.

Definition compute_pos_enc (args : Args) (le_size rw_size n2v_size : Z)
  (norm : bool) (device : string) (w : world)
  : result (list (list npfloat) * world) :=
  let? (A, w) := read_adjacency (adj_path args) w in
  let edge_index := edge_index_of A in
  let data := make_data edge_index device in
  let? (pe_le, data, w) := spectral_block le_size A data w in
  let? (pe_rw, w) := diffusion_block rw_size A data w in
  let? (pe_n2v, w) := learned_block n2v_size A data w in
  let? pe := assemble pe_le pe_n2v in
  let pe_path := pe_path_from args in
  let w := to_parquet pe pe_path w in
  Ok (pe, w).

(** *** [pos_enc] (lines 309-317) *)

Definition path_exists (path : string) (w : world) : bool :=
  match fs w !! path with
  | Some _ => true
  | None => false
  end.

Definition pos_enc (args : Args) (le_size rw_size n2v_size : Z) (norm : bool)
  (use_cached : bool) (device : string) (w : world)
  : result (list (list npfloat) * world) :=
  let pe_path := pe_path args in
  if use_cached && path_exists pe_path w then
    let? t := of_option FileNotFoundError (fs w !! pe_path) in
    Ok (to_numpy t, log (EvReadParquet pe_path) w)
  else compute_pos_enc args le_size rw_size n2v_size norm device w.

(** ** Notions the statements use *)

(** The weight leaving node [u]. *)
Definition out_weight (value : list Q) (row : list nat) (u : nat) : Q :=
  sum_list_Q (mask_select value (map (Nat.eqb u) row)).

Definition identity (N : nat) : tensor :=
  mkTensor SparseCsr N (fun i j => if i =? j then 1%Q else 0%Q).

(** [matrix_power M t] is the [t]-th power of [M]. *)
Fixpoint matrix_power (M : tensor) (t : nat) : tensor :=
  match t with
  | 0 => identity (t_size M)
  | S t' => matmul (matrix_power M t') M
  end.

(** Two tensors agree on the entries of an [N x N] matrix. *)
Definition tensor_eq (N : nat) (a b : tensor) : Prop :=
  forall i j, i < N -> j < N -> (t_at a i j == t_at b i j)%Q.

(** The part of a [Data] object the encoders read. *)
Definition same_graph (d1 d2 : gmap string attr) : Prop :=
  d1 !! "edge_index"%string = d2 !! "edge_index"%string /\
  d1 !! "edge_weight"%string = d2 !! "edge_weight"%string /\
  d1 !! "x"%string = d2 !! "x"%string.

(** The order [argsort] sorts the indexed eigenvalues by. *)
Definition key_le (p q : (Q * Q) * nat) : Prop := cle (fst p) (fst q) = true.

(** The sign a draw of the generator stands for. *)
Definition sign_of (b : bool) : Q := if b then 1%Q else (-1)%Q.

(** * Properties *)

(** ** Results and index operations *)

Lemma rbind_Ok {A B} (r : result A) (k : A -> result B) (b : B) :
  rbind r k = Ok b -> exists a, r = Ok a /\ k a = Ok b.
Proof. destruct r as [a|e]; simpl; [eauto | discriminate]. Qed.

Ltac inv_bind H :=
  let x := fresh "x" in
  let Hx := fresh "Hx" in
  apply rbind_Ok in H; destruct H as [x [Hx H]].

Lemma mask_select_map {A B} (g : A -> B) (p : A -> bool) (l : list A) :
  mask_select (map g l) (map p l) = map g (List.filter p l).
Proof.
  unfold mask_select. induction l as [|a l IH]; simpl; [reflexivity|].
  destruct (p a); simpl; [f_equal|]; exact IH.
Qed.

Lemma index_select_map {A} (t : list A) (index : list nat) (d : A) :
  Forall (fun i => i < length t) index ->
  index_select t index = Ok (map (fun i => nth i t d) index).
Proof.
  induction 1 as [|i index Hi _ IH]; simpl; [reflexivity|].
  destruct (lookup_lt_is_Some_2 t i Hi) as [x Hx].
  rewrite Hx, IH. simpl. do 2 f_equal.
  symmetry. apply nth_lookup_Some with (d := d) in Hx. exact Hx.
Qed.

Lemma index_select_Ok_length {A} (t : list A) (index : list nat) (l : list A) :
  index_select t index = Ok l -> length l = length index.
Proof.
  revert l. induction index as [|i index IH]; simpl; intros l H.
  - injection H as <-. reflexivity.
  - inv_bind H. inv_bind H. injection H as <-. simpl. f_equal. eauto.
Qed.

Lemma writer_dec {X} (g : X -> nat) (S : list X) (u : nat) :
  (exists x, In x S /\ g x = u) \/ (forall x, In x S -> g x <> u).
Proof.
  induction S as [|x S [[y [Hy Hg]] | IH]].
  - right. intros x [].
  - left. exists y. split; [right; exact Hy | exact Hg].
  - destruct (Nat.eq_dec (g x) u) as [He | Hne].
    + left. exists x. split; [left; reflexivity | exact He].
    + right. intros y [<- | Hy]; [exact Hne | exact (IH y Hy)].
Qed.

Lemma repeat_lookup {A} (x : A) (n u : nat) :
  u < n -> repeat x n !! u = Some x.
Proof.
  revert u. induction n as [|n IH]; intros [|u] Hu; simpl; try lia.
  - reflexivity.
  - apply IH. lia.
Qed.

Lemma lookup_map {A B} (f : A -> B) (l : list A) (i : nat) (x : A) :
  l !! i = Some x -> map f l !! i = Some (f x).
Proof.
  revert i. induction l as [|a l IH]; intros [|i] H; simpl in *; try discriminate.
  - injection H as <-. reflexivity.
  - apply IH. exact H.
Qed.

(** Writing the values [h x] at the positions [g x]: positions nobody
    writes keep their value, and a position that every writer fills with
    the same value holds that value. *)
Lemma index_put_map {X A} (g : X -> nat) (h : X -> A) (S : list X) (t : list A) :
  Forall (fun x => g x < length t) S ->
  exists t', index_put t (map g S) (map h S) = Ok t' /\
    length t' = length t /\
    (forall u, (forall x, In x S -> g x <> u) -> t' !! u = t !! u) /\
    (forall u v, (forall x, In x S -> g x = u -> h x = v) ->
       (exists x, In x S /\ g x = u) -> t' !! u = Some v).
Proof.
  revert t. induction S as [|x S IH]; intros t HS; simpl.
  - exists t. repeat split; try reflexivity. intros u v _ [x [[] _]].
  - inversion HS as [|? ? Hx HS']; subst.
    apply Nat.ltb_lt in Hx as Hxb. rewrite Hxb.
    destruct (IH (<[g x := h x]> t)) as [t' [Hput [Hlen [Hkeep Hset]]]].
    { rewrite length_insert. exact HS'. }
    exists t'. split; [exact Hput|]. split; [rewrite Hlen; apply length_insert|].
    split.
    + intros u Hu. rewrite Hkeep by (intros y Hy; apply Hu; right; exact Hy).
      apply list_lookup_insert_ne. apply Hu. left. reflexivity.
    + intros u v Hv [y [Hy Hgy]].
      destruct (writer_dec g S u) as [Hin | Hnot].
      * apply Hset; [|exact Hin]. intros z Hz. apply Hv. right. exact Hz.
      * rewrite Hkeep by exact Hnot.
        destruct Hy as [<- | Hy]; [|exfalso; exact (Hnot y Hy Hgy)].
        subst u. rewrite <- (Hv x (or_introl eq_refl) eq_refl).
        apply list_lookup_insert_eq. exact Hx.
Qed.

(** ** Sums of rationals *)

Lemma sum_list_Q_zero (l : list Q) :
  Forall (fun x => x == 0)%Q l -> (sum_list_Q l == 0)%Q.
Proof.
  induction 1 as [|x l Hx _ IH]; simpl; [reflexivity|].
  rewrite Hx, IH. reflexivity.
Qed.

Lemma sum_list_Q_ext {X} (f g : X -> Q) (l : list X) :
  (forall x, In x l -> (f x == g x)%Q) ->
  (sum_list_Q (map f l) == sum_list_Q (map g l))%Q.
Proof.
  induction l as [|x l IH]; simpl; intros H; [reflexivity|].
  rewrite (H x) by (left; reflexivity).
  rewrite IH by (intros y Hy; apply H; right; exact Hy). reflexivity.
Qed.

Lemma sumQ_ext (f g : nat -> Q) (n : nat) :
  (forall k, k < n -> (f k == g k)%Q) -> (sumQ f n == sumQ g n)%Q.
Proof.
  intros H. apply sum_list_Q_ext. intros k Hk. apply H.
  apply in_seq in Hk. lia.
Qed.

Lemma sumQ_zero (f : nat -> Q) (n : nat) :
  (forall k, k < n -> (f k == 0)%Q) -> (sumQ f n == 0)%Q.
Proof.
  intros H. apply sum_list_Q_zero. apply List.Forall_forall.
  intros x Hx. apply in_map_iff in Hx as [k [<- Hk]].
  apply H. apply in_seq in Hk. lia.
Qed.

Lemma sum_list_Q_const {X} (c : Q) (l : list X) :
  (sum_list_Q (map (fun _ => c) l) == inject_Z (Z.of_nat (length l)) * c)%Q.
Proof.
  induction l as [|x l IH].
  - simpl. ring.
  - cbn [map sum_list_Q fold_right length]. fold (sum_list_Q (map (fun _ => c) l)).
    rewrite IH, Nat2Z.inj_succ. unfold Z.succ. rewrite inject_Z_plus. ring.
Qed.

(** ** The diagonal of a sparse tensor through [get_self_loop_attr] *)

Lemma get_pe_sparse (N : nat) (loop_index : option (list nat)) (out : tensor) :
  t_layout out = SparseCsr -> t_size out = N ->
  exists v, AddRandomWalkPE.get_pe N loop_index out = Ok v /\
    length v = N /\ forall u, u < N -> (nth u v 0 == t_at out u u)%Q.
Proof.
  intros Hlay Hsize.
  unfold AddRandomWalkPE.get_pe, is_torch_sparse_tensor. rewrite Hlay.
  unfold to_edge_index, get_self_loop_attr. rewrite Hsize.
  set (stored := List.filter _ (list_prod (seq 0 N) (seq 0 N))).
  rewrite !mask_select_map. cbn [maybe_num_nodes].
  set (S := List.filter (fun e : nat * nat => fst e =? snd e) stored).
  destruct (index_put_map fst (fun e : nat * nat => t_at out (fst e) (snd e))
              S (repeat 0%Q N)) as [v [Hput [Hlen [Hkeep Hset]]]].
  { apply List.Forall_forall. intros [i j] Hin. rewrite repeat_length.
    apply filter_In in Hin as [Hin _]. apply filter_In in Hin as [Hin _].
    apply in_prod_iff in Hin as [Hi _]. apply in_seq in Hi. simpl. lia. }
  exists v. split; [exact Hput|]. rewrite repeat_length in Hlen.
  split; [exact Hlen|]. intros u Hu.
  destruct (writer_dec fst S u) as [Hin | Hnot].
  - rewrite (nth_lookup_Some v u 0%Q (t_at out u u)); [reflexivity|].
    apply Hset; [|exact Hin]. intros [i j] Hx Hfst.
    apply filter_In in Hx as [_ Hloop]. simpl in *.
    apply Nat.eqb_eq in Hloop. subst. reflexivity.
  - rewrite (nth_lookup_Some v u 0%Q 0%Q).
    + symmetry. apply Qeq_bool_iff.
      destruct (Qeq_bool (t_at out u u) 0) eqn:Hz; [reflexivity|].
      exfalso. apply (Hnot (u, u)); [|reflexivity].
      apply filter_In. split; [|simpl; apply Nat.eqb_refl].
      apply filter_In. split; [|simpl; rewrite Hz; reflexivity].
      apply in_prod_iff. split; apply in_seq; lia.
    + rewrite Hkeep by exact Hnot. apply repeat_lookup. exact Hu.
Qed.

(** ** Products and powers *)

Lemma sum_list_Q_app (l1 l2 : list Q) :
  (sum_list_Q (l1 ++ l2) == sum_list_Q l1 + sum_list_Q l2)%Q.
Proof.
  induction l1 as [|x l1 IH]; simpl; [ring|]. rewrite IH. ring.
Qed.

Lemma sumQ_S (f : nat -> Q) (n : nat) : (sumQ f (S n) == sumQ f n + f n)%Q.
Proof.
  unfold sumQ. rewrite seq_S, map_app, sum_list_Q_app. simpl. ring.
Qed.

Lemma sumQ_delta (f : nat -> Q) (n i : nat) :
  i < n -> (sumQ (fun k => (if i =? k then 1 else 0) * f k) n == f i)%Q.
Proof.
  induction n as [|n IH]; intros Hi; [lia|].
  rewrite sumQ_S. destruct (Nat.eq_dec i n) as [-> | Hne].
  - rewrite Nat.eqb_refl. rewrite sumQ_zero; [ring|].
    intros k Hk. replace (n =? k) with false; [ring|].
    symmetry. apply Nat.eqb_neq. lia.
  - rewrite IH by lia. replace (i =? n) with false; [ring|].
    symmetry. apply Nat.eqb_neq. exact Hne.
Qed.

Lemma matrix_power_size (M : tensor) (t : nat) :
  t_size (matrix_power M t) = t_size M.
Proof. induction t as [|t IH]; simpl; [reflexivity | exact IH]. Qed.

Lemma matmul_tensor_eq (N : nat) (a a' b : tensor) :
  t_size a = N -> t_size a' = N -> tensor_eq N a a' ->
  tensor_eq N (matmul a b) (matmul a' b).
Proof.
  intros Ha Ha' H i j Hi Hj. simpl. rewrite Ha, Ha'.
  apply sumQ_ext. intros k Hk. rewrite (H i k Hi Hk). reflexivity.
Qed.

Lemma matrix_power_1 (M : tensor) :
  tensor_eq (t_size M) M (matrix_power M 1).
Proof.
  intros i j Hi Hj. simpl.
  rewrite (sumQ_delta (fun k => t_at M k j)) by exact Hi. reflexivity.
Qed.

(** ** The walk of [AddRandomWalkPE.forward] *)

Lemma walk_powers (n N m : nat) (loop_index : option (list nat))
  (adj out : tensor) (pe_list : list (list Q)) :
  t_layout adj = SparseCsr -> t_layout out = SparseCsr ->
  t_size adj = N -> t_size out = N ->
  tensor_eq N out (matrix_power adj m) ->
  exists vs,
    AddRandomWalkPE.walk n N loop_index adj out pe_list = Ok (pe_list ++ vs) /\
    length vs = n /\
    forall j, j < n ->
      length (nth j vs []) = N /\
      forall u, u < N ->
        (nth u (nth j vs []) 0 == t_at (matrix_power adj (m + S j)) u u)%Q.
Proof.
  revert m out pe_list.
  induction n as [|n IH]; intros m out pe_list Hadj Hout Hsa Hso Heq.
  - exists []. simpl. rewrite app_nil_r. repeat split; intros; lia.
  - cbn [AddRandomWalkPE.walk].
    assert (Hlay' : t_layout (matmul out adj) = SparseCsr)
      by (simpl; rewrite Hadj, Hout; reflexivity).
    assert (Heq' : tensor_eq N (matmul out adj) (matrix_power adj (S m))).
    { cbn [matrix_power]. apply matmul_tensor_eq; try assumption.
      rewrite matrix_power_size. exact Hsa. }
    destruct (get_pe_sparse N loop_index (matmul out adj) Hlay' Hso)
      as [v [Hv [Hlen Hdiag]]].
    rewrite Hv. cbn [rbind].
    destruct (IH (S m) (matmul out adj) (pe_list ++ [v]) Hadj Hlay' Hsa Hso Heq')
      as [vs [Hwalk [Hvs Hspec]]].
    exists (v :: vs). rewrite Hwalk, <- app_assoc. simpl.
    split; [reflexivity|]. split; [f_equal; exact Hvs|].
    intros [|j] Hj.
    + split; [exact Hlen|]. intros u Hu. rewrite (Hdiag u Hu).
      replace (m + 1) with (S m) by lia. apply Heq'; exact Hu.
    + destruct (Hspec j) as [Hl Hd]; [lia|]. split; [exact Hl|].
      intros u Hu. rewrite (Hd u Hu). replace (m + S (S j)) with (S m + S j) by lia.
      reflexivity.
Qed.

Lemma stack_last_spec (pe_list : list (list Q)) (N : nat) :
  pe_list <> [] -> Forall (fun v => length v = N) pe_list ->
  exists pe, AddRandomWalkPE.stack_last pe_list = Ok pe /\
    length pe = N /\
    Forall (fun r => length r = length pe_list) pe /\
    forall u t, u < N ->
      nth t (nth u pe []) 0%Q = nth u (nth t pe_list []) 0%Q.
Proof.
  intros Hne Hall. destruct pe_list as [|v rest]; [congruence|].
  unfold AddRandomWalkPE.stack_last.
  assert (Hv : length v = N) by (inversion Hall; assumption).
  replace (forallb _ (v :: rest)) with true.
  2:{ symmetry. apply forallb_forall. intros v' Hin.
      apply Nat.eqb_eq. rewrite Hv.
      rewrite List.Forall_forall in Hall. apply Hall. exact Hin. }
  eexists. split; [reflexivity|]. rewrite length_map, length_seq.
  split; [exact Hv|]. split.
  - apply List.Forall_forall. intros r Hr. apply in_map_iff in Hr as [i [<- _]].
    apply length_map.
  - intros u t Hu. rewrite Hv.
    rewrite (nth_indep _ [] (map (fun v' => nth 0 v' 0%Q) (v :: rest)))
      by (rewrite length_map, length_seq; exact Hu).
    rewrite (map_nth (fun i => map (fun v' => nth i v' 0%Q) (v :: rest)) (seq 0 N) 0 u).
    rewrite seq_nth by exact Hu. cbn [Nat.add].
    destruct (Nat.lt_ge_cases t (length (v :: rest))) as [Ht | Ht].
    + rewrite (nth_indep _ 0%Q (nth u [] 0%Q)) by (rewrite length_map; exact Ht).
      apply (map_nth (fun v' => nth u v' 0%Q)).
    + rewrite (nth_overflow (map _ _)) by (rewrite length_map; exact Ht).
      rewrite (nth_overflow (v :: rest)) by exact Ht.
      destruct u; reflexivity.
Qed.

(** ** Transition values *)

Lemma nth_map_seq {A} (F : nat -> A) (N u : nat) (d : A) :
  u < N -> nth u (map F (seq 0 N)) d = F u.
Proof.
  intros Hu. rewrite (nth_indep _ d (F 0)) by (rewrite length_map, length_seq; exact Hu).
  rewrite (map_nth F (seq 0 N) 0 u), seq_nth by exact Hu. reflexivity.
Qed.

Lemma transition_value_Ok (data : gmap string attr) (row : list nat) (N : nat) :
  Forall (fun u => u < N) row ->
  AddRandomWalkPE.transition_value data row N
  = Ok (map (fun u =>
               (1 / clamp_min 1 (out_weight (AddRandomWalkPE.edge_value data) row u))%Q)
          row).
Proof.
  intros Hrow. unfold AddRandomWalkPE.transition_value.
  rewrite (index_select_map _ row 0%Q).
  2:{ unfold scatter_sum. rewrite !length_map, length_seq. exact Hrow. }
  cbn [rbind]. f_equal. rewrite map_map. apply map_ext_in. intros u Hu.
  rewrite List.Forall_forall in Hrow. specialize (Hrow u Hu).
  unfold scatter_sum. rewrite map_map, nth_map_seq by exact Hrow. reflexivity.
Qed.

Lemma mask_select_all_false {A B} (v : list A) (p : B -> bool) (l : list B) :
  (forall e, In e l -> p e = false) -> mask_select v (map p l) = [].
Proof.
  unfold mask_select. revert v. induction l as [|e l IH]; intros v H.
  - destruct v; reflexivity.
  - destruct v as [|x v]; [reflexivity|]. simpl.
    rewrite (H e) by (left; reflexivity). simpl.
    apply IH. intros e' He'. apply H. right. exact He'.
Qed.

Lemma repeat_as_map {A B} (x : A) (l : list B) :
  repeat x (length l) = map (fun _ => x) l.
Proof. induction l as [|b l IH]; simpl; [reflexivity | f_equal; exact IH]. Qed.

(** With unit weights the weight leaving [u] is the number of edges out
    of [u]. *)
Lemma out_weight_ones (row : list nat) (u : nat) :
  (out_weight (repeat 1%Q (length row)) row u
   == inject_Z (Z.of_nat (length (List.filter (Nat.eqb u) row))))%Q.
Proof.
  unfold out_weight. rewrite repeat_as_map, mask_select_map, sum_list_Q_const.
  ring.
Qed.

Lemma filter_eqb_In (row : list nat) (u : nat) :
  In u row -> 1 <= length (List.filter (Nat.eqb u) row).
Proof.
  intros Hin. assert (H : In u (List.filter (Nat.eqb u) row)).
  { apply filter_In. split; [exact Hin | apply Nat.eqb_refl]. }
  destruct (List.filter (Nat.eqb u) row); [destruct H | simpl; lia].
Qed.

Lemma inject_nat_ge_1 (n : nat) : 1 <= n -> (1 <= inject_Z (Z.of_nat n))%Q.
Proof.
  intros H. change 1%Q with (inject_Z 1). rewrite <- Zle_Qle. lia.
Qed.

Lemma out_weight_map_const (G : nat -> Q) (row : list nat) (u : nat) :
  (out_weight (map G row) row u
   == inject_Z (Z.of_nat (length (List.filter (Nat.eqb u) row))) * G u)%Q.
Proof.
  unfold out_weight. rewrite mask_select_map.
  rewrite (sum_list_Q_ext G (fun _ => G u)).
  - rewrite sum_list_Q_const. reflexivity.
  - intros x Hx. apply filter_In in Hx as [_ Hx]. apply Nat.eqb_eq in Hx.
    subst. reflexivity.
Qed.

Lemma edge_value_unit (data : gmap string attr) (ei : list (nat * nat)) :
  data_edge_index data = Some ei -> data_edge_weight data = None ->
  AddRandomWalkPE.edge_value data = repeat 1%Q (length (map fst ei)).
Proof.
  intros Hei Hw. unfold AddRandomWalkPE.edge_value, data_num_edges.
  rewrite Hw, Hei, length_map. reflexivity.
Qed.

(** C5, as the code has it. For every edge out of [u] the transition value
    is the reciprocal of the weight leaving [u], clamped to at least 1,
    whatever the weight of the edge itself. With unit weights (no
    [edge_weight], as in the pipeline) this is the edge weight divided by
    the weight leaving [u], the clamp changes nothing, and the transition
    values out of every node that has an outgoing edge add up to 1. *)
Theorem transition_value_normalised (data : gmap string attr)
  (ei : list (nat * nat)) (N : nat) :
  data_edge_index data = Some ei ->
  Forall (fun e => fst e < N) ei ->
  exists value,
    AddRandomWalkPE.transition_value data (map fst ei) N = Ok value /\
    length value = length ei /\
    (forall i u, map fst ei !! i = Some u ->
       value !! i
       = Some (1 / clamp_min 1
                     (out_weight (AddRandomWalkPE.edge_value data) (map fst ei) u))%Q) /\
    (data_edge_weight data = None ->
     forall u, In u (map fst ei) ->
       let s := out_weight (AddRandomWalkPE.edge_value data) (map fst ei) u in
       clamp_min 1 s = s /\
       (forall i, map fst ei !! i = Some u ->
          exists v, value !! i = Some v /\ (v == 1 / s)%Q) /\
       (out_weight value (map fst ei) u == 1)%Q).
Proof.
  intros Hei Hrange. set (row := map fst ei).
  assert (Hrow : Forall (fun u => u < N) row).
  { apply List.Forall_forall. intros u Hu. apply in_map_iff in Hu as [e [<- He]].
    rewrite List.Forall_forall in Hrange. exact (Hrange e He). }
  eexists. split; [apply transition_value_Ok; exact Hrow|].
  split; [unfold row; rewrite !length_map; reflexivity|]. split.
  - intros i u Hi.
    exact (lookup_map (fun u0 => (1 / clamp_min 1 (out_weight (AddRandomWalkPE.edge_value data) row u0))%Q) row i u Hi).
  - intros Hw u Hu s.
    assert (Hs : (s == inject_Z (Z.of_nat (length (List.filter (Nat.eqb u) row))))%Q).
    { unfold s. rewrite (edge_value_unit data ei Hei Hw). apply out_weight_ones. }
    assert (Hge : (1 <= s)%Q).
    { rewrite Hs. apply inject_nat_ge_1, filter_eqb_In. exact Hu. }
    assert (Hclamp : clamp_min 1 s = s).
    { unfold clamp_min. apply Qle_bool_iff in Hge. rewrite Hge. reflexivity. }
    split; [exact Hclamp|]. split.
    + intros i Hi. eexists. split.
      * exact (lookup_map (fun u0 => (1 / clamp_min 1 (out_weight (AddRandomWalkPE.edge_value data) row u0))%Q) row i u Hi).
      * cbv beta. fold row. fold s. rewrite Hclamp. reflexivity.
    + rewrite out_weight_map_const. fold s. rewrite Hclamp, <- Hs.
      field. intros H0. rewrite H0 in Hge. revert Hge. apply Qlt_not_le. reflexivity.
Qed.

(** ** The operator of the walk *)

(** Whatever the number of nodes, the operator handed to the walk is the
    CSR tensor: the strided tensor of the branch for small graphs is
    assigned over. *)
Lemma transition_operator_sparse (ei : list (nat * nat)) (value : list Q) (N : nat) :
  fst (AddRandomWalkPE.transition_operator ei value N)
  = to_torch_csr_tensor ei value N.
Proof. reflexivity. Qed.

(** C1, evaluated on a graph of two nodes: the graph is below the size
    threshold, the strided tensor of the dense branch is built, and the
    operator the walk uses is the CSR tensor all the same. *)
Theorem dense_branch_overwritten :
  let ei := [(0, 1); (1, 0)] in
  let value := [1%Q; 1%Q] in
  (2 <=? 2000) = true /\
  t_layout (dense_adj ei value 2) = Strided /\
  t_layout (fst (AddRandomWalkPE.transition_operator ei value 2)) = SparseCsr /\
  is_torch_sparse_tensor (fst (AddRandomWalkPE.transition_operator ei value 2)) = true.
Proof. repeat split. Qed.

Lemma zero_column (ei : list (nat * nat)) (value : list Q) (N u k : nat) :
  (forall e, In e ei -> snd e <> u) ->
  t_at (to_torch_csr_tensor ei value N) k u = 0%Q.
Proof.
  intros H. simpl. rewrite mask_select_all_false; [reflexivity|].
  intros e He. apply andb_false_iff. right. apply Nat.eqb_neq. exact (H e He).
Qed.

Lemma power_zero_column (M : tensor) (u t : nat) :
  (forall k, t_at M k u = 0%Q) -> 1 <= t ->
  (t_at (matrix_power M t) u u == 0)%Q.
Proof.
  intros H Ht. destruct t as [|t]; [lia|]. simpl.
  apply sumQ_zero. intros k _. rewrite H. ring.
Qed.

(** C6. For a walk length [L >= 1] the encoder returns a matrix with one
    row per node and [L] columns; column [t] holds the diagonal of the
    [t]-th power of the transition operator; column 1 is the transition
    value of the self-loops of each node; and the row of a node that no
    edge enters is zero throughout. *)
Theorem random_walk_pe_return_probabilities (L : nat) (data : gmap string attr)
  (ei : list (nat * nat)) (N : nat) :
  1 <= L ->
  data_edge_index data = Some ei ->
  data_num_nodes data = Some N ->
  Forall (fun e => fst e < N /\ snd e < N) ei ->
  exists pe value,
    AddRandomWalkPE.random_walk_pe L data = Ok pe /\
    AddRandomWalkPE.transition_value data (map fst ei) N = Ok value /\
    length pe = N /\
    Forall (fun r => length r = L) pe /\
    (forall u t, u < N -> 1 <= t <= L ->
       (nth (t - 1) (nth u pe []) 0
        == t_at (matrix_power (to_torch_csr_tensor ei value N) t) u u)%Q) /\
    (forall u, u < N ->
       (nth 0 (nth u pe []) 0
        == sum_list_Q
             (mask_select value
                (map (fun e : nat * nat => (fst e =? u) && (snd e =? u)) ei)))%Q) /\
    (forall u, u < N -> (forall e, In e ei -> snd e <> u) ->
       forall t, 1 <= t <= L -> (nth (t - 1) (nth u pe []) 0 == 0)%Q).
Proof.
  intros HL Hei HN Hrange.
  assert (Hrow : Forall (fun u => u < N) (map fst ei)).
  { apply List.Forall_forall. intros u Hu. apply in_map_iff in Hu as [e [<- He]].
    rewrite List.Forall_forall in Hrange. apply (Hrange e He). }
  pose proof (transition_value_Ok data (map fst ei) N Hrow) as Hval.
  set (value := map _ (map fst ei)) in Hval.
  set (M := to_torch_csr_tensor ei value N).
  destruct (get_pe_sparse N (if N <=? 2000 then Some (seq 0 N) else None) M
              eq_refl eq_refl) as [pe0 [Hpe0 [Hlen0 Hdiag0]]].
  destruct (walk_powers (L - 1) N 1 (if N <=? 2000 then Some (seq 0 N) else None)
              M M [pe0] eq_refl eq_refl eq_refl eq_refl (matrix_power_1 M))
    as [vs [Hwalk [Hvs Hspec]]].
  destruct (stack_last_spec ([pe0] ++ vs) N) as [pe [Hstack [Hlen [Hwidth Hnth]]]].
  { discriminate. }
  { constructor; [exact Hlen0|]. apply List.Forall_forall. intros v Hv.
    apply (In_nth _ _ []) in Hv as [j [Hj <-]]. apply Hspec. lia. }
  assert (Hcol : forall u t, u < N -> 1 <= t <= L ->
            (nth (t - 1) (nth u pe []) 0 == t_at (matrix_power M t) u u)%Q).
  { intros u t Hu Ht. rewrite (Hnth u (t - 1) Hu).
    destruct t as [|[|t]]; [lia | |].
    - simpl. rewrite (Hdiag0 u Hu). apply (matrix_power_1 M); exact Hu.
    - replace (S (S t) - 1) with (S t) by lia. cbn [app nth].
      destruct (Hspec t) as [_ Hd]; [lia|]. rewrite (Hd u Hu).
      replace (1 + S t) with (S (S t)) by lia. reflexivity. }
  exists pe, value. split.
  { unfold AddRandomWalkPE.random_walk_pe. rewrite Hei, HN. cbn [of_option rbind].
    rewrite Hval. cbn [rbind]. unfold AddRandomWalkPE.transition_operator.
    fold M. rewrite Hpe0. cbn [rbind]. rewrite Hwalk. cbn [rbind]. exact Hstack. }
  split; [exact Hval|]. split; [exact Hlen|]. split.
  { eapply List.Forall_impl; [|exact Hwidth]. intros r Hr. cbv beta in Hr.
    rewrite Hr, length_app, Hvs. simpl. lia. }
  split; [exact Hcol|]. split.
  - intros u Hu. rewrite (Hnth u 0 Hu). simpl. rewrite (Hdiag0 u Hu). reflexivity.
  - intros u Hu Hin t Ht. rewrite (Hcol u t Hu Ht).
    apply power_zero_column; [|lia]. intros k. apply zero_column. exact Hin.
Qed.

(** ** Minimum, maximum and the min-max normalisation *)

Lemma Qmin_cases (a b : Q) : Qmin a b = a \/ Qmin a b = b.
Proof. unfold Qmin, GenericMinMax.gmin. destruct (a ?= b)%Q; auto. Qed.

Lemma Qmax_cases (a b : Q) : Qmax a b = a \/ Qmax a b = b.
Proof. unfold Qmax, GenericMinMax.gmax. destruct (a ?= b)%Q; auto. Qed.

Lemma fold_min_spec (es : list Q) (e : Q) :
  In (fold_left Qmin es e) (e :: es) /\
  forall x, In x (e :: es) -> (fold_left Qmin es e <= x)%Q.
Proof.
  revert e. induction es as [|a es IH]; intros e; simpl.
  - split; [left; reflexivity|]. intros x [<- | []]. apply Qle_refl.
  - destruct (IH (Qmin e a)) as [Hin Hle]. split.
    + destruct Hin as [Hin | Hin]; [|right; right; exact Hin].
      rewrite <- Hin. destruct (Qmin_cases e a) as [-> | ->]; auto.
    + intros x [<- | [<- | Hx]].
      * eapply Qle_trans; [apply Hle; left; reflexivity | apply Q.le_min_l].
      * eapply Qle_trans; [apply Hle; left; reflexivity | apply Q.le_min_r].
      * apply Hle. right. exact Hx.
Qed.

Lemma fold_max_spec (es : list Q) (e : Q) :
  In (fold_left Qmax es e) (e :: es) /\
  forall x, In x (e :: es) -> (x <= fold_left Qmax es e)%Q.
Proof.
  revert e. induction es as [|a es IH]; intros e; simpl.
  - split; [left; reflexivity|]. intros x [<- | []]. apply Qle_refl.
  - destruct (IH (Qmax e a)) as [Hin Hle]. split.
    + destruct Hin as [Hin | Hin]; [|right; right; exact Hin].
      rewrite <- Hin. destruct (Qmax_cases e a) as [-> | ->]; auto.
    + intros x [<- | [<- | Hx]].
      * eapply Qle_trans; [apply Q.le_max_l | apply Hle; left; reflexivity].
      * eapply Qle_trans; [apply Q.le_max_r | apply Hle; left; reflexivity].
      * apply Hle. right. exact Hx.
Qed.

Lemma np_min_spec (x : list (list Q)) :
  0 < np_size x ->
  In (np_min x) (concat x) /\ forall e, In e (concat x) -> (np_min x <= e)%Q.
Proof.
  unfold np_size, np_min. destruct (concat x) as [|e es]; simpl; [lia|].
  intros _. apply fold_min_spec.
Qed.

Lemma np_max_spec (x : list (list Q)) :
  0 < np_size x ->
  In (np_max x) (concat x) /\ forall e, In e (concat x) -> (e <= np_max x)%Q.
Proof.
  unfold np_size, np_max. destruct (concat x) as [|e es]; simpl; [lia|].
  intros _. apply fold_max_spec.
Qed.

Lemma np_size_map {A B} (f : A -> B) (x : list (list A)) :
  np_size (map (map f) x) = np_size x.
Proof. unfold np_size. rewrite <- concat_map. apply length_map. Qed.

Lemma np_div_pos (a b : Q) : (0 < b)%Q -> np_div a b = Fin (a / b).
Proof.
  intros Hb. unfold np_div. destruct (Qeq_bool b 0) eqn:Hz; [|reflexivity].
  apply Qeq_bool_iff in Hz. rewrite Hz in Hb. exfalso. exact (Qlt_irrefl 0 Hb).
Qed.

(** A block without elements has only empty rows. *)
Lemma np_size_0_rows {A} (x : list (list A)) :
  np_size x = 0 -> Forall (fun r => r = []) x.
Proof.
  unfold np_size. induction x as [|r x IH]; simpl; intros H; constructor.
  - destruct r; [reflexivity | discriminate].
  - apply IH. rewrite length_app in H. lia.
Qed.

Lemma cat_last_empty_l {A} (x b : list (list A)) :
  Forall (fun r => r = []) x -> length b = length x -> cat_last x b = Ok b.
Proof.
  intros Hx Hlen. unfold cat_last. rewrite <- Hlen, Nat.eqb_refl. f_equal.
  revert b Hlen. induction Hx as [|r x -> _ IH]; intros [|rb b] Hlen;
    simpl in *; try discriminate; [reflexivity|].
  f_equal. apply IH. lia.
Qed.

Lemma cat_last_empty_r {A} (x b : list (list A)) :
  Forall (fun r => r = []) x -> length b = length x -> cat_last b x = Ok b.
Proof.
  intros Hx Hlen. unfold cat_last. rewrite Hlen, Nat.eqb_refl. f_equal.
  revert b Hlen. induction Hx as [|r x -> _ IH]; intros [|rb b] Hlen;
    simpl in *; try discriminate; [reflexivity|].
  rewrite app_nil_r. f_equal. apply IH. lia.
Qed.

(** C4, as the code has it. A block with elements whose maximum exceeds
    its minimum is mapped to a block of finite values with minimum 0 and
    maximum 1; a block without elements is returned as it is, and
    concatenating it on either side of another block gives that block. *)
Theorem minmax_normalises (x : list (list Q)) :
  (0 < np_size x -> (np_min x < np_max x)%Q ->
   exists y : list (list Q),
     minmax x = map (map Fin) y /\
     length y = length x /\
     (np_min y == 0)%Q /\ (np_max y == 1)%Q) /\
  (np_size x = 0 ->
   minmax x = map (map Fin) x /\
   forall b : list (list npfloat), length b = length x ->
     concatenate [minmax x; b] = Ok b /\ concatenate [b; minmax x] = Ok b).
Proof.
  split.
  - intros Hsize Hlt.
    set (mn := np_min x) in *. set (mx := np_max x) in *.
    assert (Hd : (0 < mx - mn)%Q) by lra.
    set (f := fun e : Q => ((e - mn) / (mx - mn))%Q).
    exists (map (map f) x).
    assert (Hsize' : 0 < np_size (map (map f) x)) by (rewrite np_size_map; exact Hsize).
    destruct (np_min_spec x Hsize) as [Hmin_in Hmin_le].
    destruct (np_max_spec x Hsize) as [Hmax_in Hmax_le].
    destruct (np_min_spec _ Hsize') as [Hmin_in' Hmin_le'].
    destruct (np_max_spec _ Hsize') as [Hmax_in' Hmax_le'].
    rewrite <- concat_map in Hmin_in', Hmin_le', Hmax_in', Hmax_le'.
    fold mn in Hmin_in, Hmin_le. fold mx in Hmax_in, Hmax_le.
    split.
    { unfold minmax. apply Nat.ltb_lt in Hsize. rewrite Hsize.
      rewrite map_map. apply map_ext. intros r. rewrite map_map.
      apply map_ext. intros e. fold mn mx. apply np_div_pos. exact Hd. }
    split; [apply length_map|]. split.
    + apply Qle_antisym.
      * eapply Qle_trans; [apply Hmin_le'; apply in_map; exact Hmin_in|].
        unfold f. apply Qle_shift_div_r; [exact Hd | lra].
      * apply in_map_iff in Hmin_in' as [e [<- He]].
        unfold f. apply Qle_shift_div_l; [exact Hd|].
        specialize (Hmin_le e He). lra.
    + apply Qle_antisym.
      * apply in_map_iff in Hmax_in' as [e [<- He]].
        unfold f. apply Qle_shift_div_r; [exact Hd|].
        specialize (Hmax_le e He). lra.
      * eapply Qle_trans; [|apply Hmax_le'; apply in_map; exact Hmax_in].
        unfold f. apply Qle_shift_div_l; [exact Hd | lra].
  - intros Hsize. unfold minmax. rewrite Hsize. cbn [Nat.ltb Nat.leb].
    split; [reflexivity|]. intros b Hb.
    assert (Hrows : Forall (fun r : list npfloat => r = []) (map (map Fin) x)).
    { apply np_size_0_rows. rewrite np_size_map. exact Hsize. }
    cbn [concatenate rbind]. split.
    + apply cat_last_empty_l; [exact Hrows | rewrite length_map; exact Hb].
    + apply cat_last_empty_r; [exact Hrows | rewrite length_map; exact Hb].
Qed.

(** ** [argsort] *)

Lemma cle_total (a b : Q * Q) : cle a b = false -> cle b a = true.
Proof.
  unfold cle. destruct (Qeq_bool (fst a) (fst b)) eqn:He.
  - apply Qeq_bool_iff in He. intros H.
    replace (Qeq_bool (fst b) (fst a)) with true
      by (symmetry; apply Qeq_bool_iff; symmetry; exact He).
    apply Qle_bool_iff. destruct (Qle_bool (snd a) (snd b)) eqn:Hs; [discriminate|].
    destruct (Qlt_le_dec (snd b) (snd a)) as [Hlt | Hle].
    + apply Qlt_le_weak. exact Hlt.
    + apply Qle_bool_iff in Hle. congruence.
  - intros H. destruct (Qeq_bool (fst b) (fst a)) eqn:He'.
    + apply Qeq_bool_iff in He'. symmetry in He'. apply Qeq_bool_iff in He'. congruence.
    + apply Qle_bool_iff. destruct (Qlt_le_dec (fst b) (fst a)) as [Hlt | Hle].
      * apply Qlt_le_weak. exact Hlt.
      * apply Qle_bool_iff in Hle. congruence.
Qed.

Lemma insert_key_perm (p : (Q * Q) * nat) (l : list ((Q * Q) * nat)) :
  Permutation (insert_key p l) (p :: l).
Proof.
  induction l as [|q l IH]; simpl; [reflexivity|].
  destruct (cle (fst p) (fst q)); [reflexivity|].
  rewrite IH. apply perm_swap.
Qed.

Lemma insert_key_sorted (p : (Q * Q) * nat) (l : list ((Q * Q) * nat)) :
  Sorted key_le l -> Sorted key_le (insert_key p l).
Proof.
  induction 1 as [|q l Hs IH Hhd]; simpl.
  - repeat constructor.
  - destruct (cle (fst p) (fst q)) eqn:Hc.
    + constructor; [constructor; assumption|]. constructor. exact Hc.
    + constructor; [exact IH|].
      destruct l as [|r l]; simpl.
      * constructor. apply cle_total. exact Hc.
      * destruct (cle (fst p) (fst r)).
        -- constructor. apply cle_total. exact Hc.
        -- constructor. inversion Hhd. assumption.
Qed.

Lemma sort_keys_perm (l : list ((Q * Q) * nat)) :
  Permutation (fold_right insert_key [] l) l.
Proof.
  induction l as [|p l IH]; simpl; [reflexivity|].
  rewrite insert_key_perm, IH. reflexivity.
Qed.

Lemma sort_keys_sorted (l : list ((Q * Q) * nat)) :
  Sorted key_le (fold_right insert_key [] l).
Proof.
  induction l as [|p l IH]; simpl; [constructor|].
  apply insert_key_sorted. exact IH.
Qed.

Lemma map_snd_combine {A B} (l1 : list A) (l2 : list B) :
  length l1 = length l2 -> map snd (combine l1 l2) = l2.
Proof.
  revert l2. induction l1 as [|a l1 IH]; intros [|b l2] H; simpl in *;
    try discriminate; [reflexivity|].
  f_equal. apply IH. lia.
Qed.

Lemma argsort_perm (vals : list (Q * Q)) :
  Permutation (argsort vals) (seq 0 (length vals)).
Proof.
  unfold argsort. rewrite sort_keys_perm.
  rewrite map_snd_combine by (rewrite length_seq; reflexivity). reflexivity.
Qed.

Lemma argsort_length (vals : list (Q * Q)) :
  length (argsort vals) = length vals.
Proof.
  rewrite (Permutation_length (argsort_perm vals)). apply length_seq.
Qed.

Lemma argsort_range (vals : list (Q * Q)) :
  Forall (fun i => i < length vals) (argsort vals).
Proof.
  apply List.Forall_forall. intros i Hi.
  apply (Permutation_in _ (argsort_perm vals)) in Hi.
  apply in_seq in Hi. lia.
Qed.

Lemma combine_seq_keys (vals : list (Q * Q)) (s : nat) (d : Q * Q) :
  forall p, In p (combine vals (seq s (length vals))) ->
    s <= snd p /\ nth (snd p - s) vals d = fst p.
Proof.
  revert s. induction vals as [|v vals IH]; intros s p Hp; simpl in *; [destruct Hp|].
  destruct Hp as [<- | Hp]; simpl.
  - rewrite Nat.sub_diag. split; [lia | reflexivity].
  - destruct (IH (S s) p Hp) as [Hle Hnth]. split; [lia|].
    replace (snd p - s) with (S (snd p - S s)) by lia. exact Hnth.
Qed.

Lemma Sorted_map {A B} (R : A -> A -> Prop) (R' : B -> B -> Prop) (f : A -> B)
  (l : list A) :
  (forall a b, R a b -> R' (f a) (f b)) -> Sorted R l -> Sorted R' (map f l).
Proof.
  intros HR. induction 1 as [|a l Hs IH Hhd]; simpl; constructor; [exact IH|].
  destruct Hhd; simpl; constructor. apply HR. assumption.
Qed.

(** The eigenvalues, read in the order [argsort] returns, ascend. *)
Lemma argsort_sorted (vals : list (Q * Q)) (d : Q * Q) :
  Sorted (fun a b => cle a b = true) (map (fun i => nth i vals d) (argsort vals)).
Proof.
  unfold argsort. rewrite map_map.
  set (l := fold_right insert_key [] (combine vals (seq 0 (length vals)))).
  rewrite (map_ext_in _ fst).
  - apply (Sorted_map key_le); [intros a b H; exact H|]. apply sort_keys_sorted.
  - intros p Hp. apply (Permutation_in _ (sort_keys_perm _)) in Hp.
    apply (combine_seq_keys vals 0 d) in Hp as [_ Hp].
    rewrite Nat.sub_0_r in Hp. exact Hp.
Qed.

(** ** The Laplacian transform *)

Lemma select_columns_Ok {A} (m : list (list A)) (idx : list nat) (d : A) (k : nat) :
  Forall (fun r => length r = k) m -> Forall (fun i => i < k) idx ->
  select_columns m idx = Ok (map (fun r => map (fun i => nth i r d) idx) m).
Proof.
  intros Hm Hidx. unfold select_columns.
  induction Hm as [|r m Hr _ IH]; simpl; [reflexivity|].
  rewrite (index_select_map r idx d) by (rewrite Hr; exact Hidx).
  cbn [rbind]. rewrite IH. reflexivity.
Qed.

Lemma imul_rows_Ok (pe : list (list Q)) (sign : list Q) :
  Forall (fun r => length r = length sign) pe ->
  imul_rows pe sign
  = Ok (map (fun r => map (fun p : Q * Q => (fst p * snd p)%Q) (combine r sign)) pe).
Proof.
  intros Hpe. unfold imul_rows.
  induction Hpe as [|r pe Hr _ IH]; simpl; [reflexivity|].
  rewrite Hr, Nat.eqb_refl. cbn [rbind]. rewrite IH. reflexivity.
Qed.

Lemma sign_of_draw (b : bool) :
  (-1 + 2 * (if b then 1 else 0) == sign_of b)%Q.
Proof. destruct b; reflexivity. Qed.

Lemma nth_firstn_skipn {A} (l : list A) (k j : nat) (d : A) :
  j < k -> nth j (firstn k (skipn 1 l)) d = nth (S j) l d.
Proof.
  intros Hj. destruct l as [|a l]; simpl.
  - rewrite firstn_nil. destruct j; reflexivity.
  - revert j Hj l. induction k as [|k IH]; intros j Hj l; [lia|].
    destruct l as [|b l]; simpl; [destruct j; reflexivity|].
    destruct j as [|j]; [reflexivity|]. apply IH. lia.
Qed.

Lemma laplacian_call_Ok (k : nat) (name : string) (is_undirected : bool)
  (data : gmap string attr) (w : world) (N : nat) (ei : list (nat * nat))
  (vals : list (Q * Q)) (vecs : list (list (Q * Q))) :
  data_num_nodes data = Some N ->
  data_edge_index data = Some ei ->
  (if negb is_undirected then eigs else eigsh)
    (get_laplacian ei N) (k + 1) (if negb is_undirected then SR else SA)
  = Ok (vals, vecs) ->
  length vals = k + 1 ->
  Forall (fun r => length r = k + 1) vecs ->
  AddLaplacianEigenvectorPE_call k (Some name) is_undirected data w
  = Ok (<[name := ATensor (laplacian_pe k (rng w) vals vecs)]> data,
        mkWorld (fs w) (rng w + k)
          (calls w ++ [EvEigSolver is_undirected (k + 1)
                         (if negb is_undirected then SR else SA); EvRandint k])).
Proof.
  intros HN Hei Hsolve Hvals Hvecs.
  unfold AddLaplacianEigenvectorPE_call. rewrite HN, Hei. cbn [of_option rbind].
  rewrite Hsolve. cbn [rbind].
  rewrite (select_columns_Ok vecs (argsort vals) (0%Q, 0%Q) (k + 1) Hvecs).
  2:{ rewrite <- Hvals. apply argsort_range. }
  cbn [rbind]. unfold randint, log. cbn [fs rng calls].
  rewrite imul_rows_Ok.
  - cbn [rbind add_node_attr]. unfold laplacian_pe.
    rewrite !map_map, <- app_assoc. reflexivity.
  - rewrite !map_map. apply List.Forall_forall. intros r Hr.
    apply in_map_iff in Hr as [r0 [<- _]].
    rewrite !length_map, length_seq, length_firstn, length_skipn, !length_map.
    rewrite argsort_length, Hvals. lia.
Qed.

Lemma laplacian_pe_shape (k g : nat) (vals : list (Q * Q))
  (vecs : list (list (Q * Q))) :
  length vals = k + 1 ->
  length (laplacian_pe k g vals vecs) = length vecs /\
  Forall (fun r => length r = k) (laplacian_pe k g vals vecs).
Proof.
  intros Hvals. unfold laplacian_pe. split; [apply length_map|].
  apply List.Forall_forall. intros r Hr. apply in_map_iff in Hr as [r0 [<- _]].
  rewrite length_map, length_combine, length_firstn, length_skipn, !length_map.
  rewrite argsort_length, Hvals, length_seq. lia.
Qed.

Lemma laplacian_pe_entry (k g : nat) (vals : list (Q * Q))
  (vecs : list (list (Q * Q))) (i j : nat) :
  length vals = k + 1 -> i < length vecs -> j < k ->
  (nth j (nth i (laplacian_pe k g vals vecs) []) 0
   == fst (nth (nth (S j) (argsort vals) 0%nat) (nth i vecs []) (0, 0))
      * sign_of (coin (g + j)))%Q.
Proof.
  intros Hvals Hi Hj. unfold laplacian_pe.
  set (F := fun r : list (Q * Q) => map _ (combine _ _)).
  rewrite (nth_indep _ [] (F [])) by (rewrite length_map; exact Hi).
  rewrite (map_nth F vecs [] i). unfold F.
  set (X := firstn k _). set (Sg := map _ (map _ (seq 0 k))).
  assert (HX : length X = k).
  { unfold X. rewrite length_firstn, length_skipn, !length_map, argsort_length, Hvals. lia. }
  assert (HS : length Sg = k) by (unfold Sg; rewrite !length_map, length_seq; reflexivity).
  rewrite (nth_indep _ 0%Q ((fun p : Q * Q => (fst p * snd p)%Q) (0%Q, 0%Q)))
    by (rewrite length_map, length_combine, HX, HS; lia).
  rewrite (map_nth (fun p : Q * Q => (fst p * snd p)%Q)).
  rewrite combine_nth by (rewrite HX, HS; reflexivity). cbn [fst snd].
  unfold X. rewrite nth_firstn_skipn by exact Hj.
  set (Lr := map (fun i0 => nth i0 (nth i vecs []) (0%Q, 0%Q)) (argsort vals)).
  change (nth (S j) (map fst Lr) 0%Q) with (nth (S j) (map fst Lr) (fst (0%Q, 0%Q))).
  rewrite (map_nth fst). unfold Lr.
  rewrite (nth_indep _ (0%Q, 0%Q) (nth 0 (nth i vecs []) (0%Q, 0%Q)))
    by (rewrite length_map, argsort_length, Hvals; lia).
  rewrite (map_nth (fun i0 => nth i0 (nth i vecs []) (0%Q, 0%Q))).
  unfold Sg. rewrite map_map.
  rewrite (nth_indep _ 0%Q ((fun x => (-1 + 2 * (if coin (g + x) then 1 else 0))%Q) 0))
    by (rewrite length_map, length_seq; exact Hj).
  rewrite (map_nth (fun x => (-1 + 2 * (if coin (g + x) then 1 else 0))%Q)).
  rewrite seq_nth by exact Hj. cbn [Nat.add].
  rewrite sign_of_draw. reflexivity.
Qed.

(** C7. Given the [k + 1] eigenpairs the solver returns for the request
    [k + 1] at the low end of the spectrum ([SR] for [eigs], [SA] for
    [eigsh]), the transform orders them by ascending eigenvalue, drops the
    first eigenvector, keeps the real parts of eigenvectors [1 .. k],
    multiplies column [j] by the sign of its own draw of the generator, and
    attaches the resulting matrix of one row per node and [k] columns. *)
Theorem laplacian_call_spec (k : nat) (name : string) (is_undirected : bool)
  (data : gmap string attr) (w : world) (N : nat) (ei : list (nat * nat))
  (vals : list (Q * Q)) (vecs : list (list (Q * Q))) :
  data_num_nodes data = Some N ->
  data_edge_index data = Some ei ->
  (if negb is_undirected then eigs else eigsh)
    (get_laplacian ei N) (k + 1) (if negb is_undirected then SR else SA)
  = Ok (vals, vecs) ->
  length vals = k + 1 ->
  length vecs = N ->
  Forall (fun r => length r = k + 1) vecs ->
  exists pe w',
    AddLaplacianEigenvectorPE_call k (Some name) is_undirected data w
    = Ok (<[name := ATensor pe]> data, w') /\
    calls w'
    = calls w ++ [EvEigSolver is_undirected (k + 1)
                    (if negb is_undirected then SR else SA); EvRandint k] /\
    Permutation (argsort vals) (seq 0 (k + 1)) /\
    Sorted (fun a b => cle a b = true)
      (map (fun i => nth i vals (0%Q, 0%Q)) (argsort vals)) /\
    length pe = N /\
    Forall (fun r => length r = k) pe /\
    forall i j, i < N -> j < k ->
      (nth j (nth i pe []) 0
       == fst (nth (nth (S j) (argsort vals) 0%nat) (nth i vecs []) (0, 0))
          * sign_of (coin (rng w + j)))%Q.
Proof.
  intros HN Hei Hsolve Hvals Hrows Hvecs.
  exists (laplacian_pe k (rng w) vals vecs). eexists.
  split; [apply (laplacian_call_Ok k name is_undirected data w N ei vals vecs);
          assumption|].
  split; [reflexivity|].
  split; [rewrite <- Hvals; apply argsort_perm|].
  split; [apply argsort_sorted|].
  destruct (laplacian_pe_shape k (rng w) vals vecs Hvals) as [Hlen Hwidth].
  split; [rewrite Hlen; exact Hrows|]. split; [exact Hwidth|].
  intros i j Hi Hj. apply laplacian_pe_entry; [exact Hvals | lia | exact Hj].
Qed.

(** ** What the encoders read and write *)

Lemma same_graph_refl (d : gmap string attr) : same_graph d d.
Proof. repeat split. Qed.

Lemma same_graph_reads (d1 d2 : gmap string attr) :
  same_graph d1 d2 ->
  data_edge_index d1 = data_edge_index d2 /\
  data_edge_weight d1 = data_edge_weight d2 /\
  data_num_nodes d1 = data_num_nodes d2 /\
  data_num_edges d1 = data_num_edges d2.
Proof.
  intros [Hei [Hw Hx]].
  assert (H1 : data_edge_index d1 = data_edge_index d2)
    by (unfold data_edge_index; rewrite Hei; reflexivity).
  repeat split.
  - exact H1.
  - unfold data_edge_weight. rewrite Hw. reflexivity.
  - unfold data_num_nodes. rewrite Hx, H1. reflexivity.
  - unfold data_num_edges. rewrite H1. reflexivity.
Qed.

Lemma same_graph_insert (d : gmap string attr) (name : string) (v : attr) :
  name <> "edge_index"%string -> name <> "edge_weight"%string ->
  name <> "x"%string -> same_graph d (<[name := v]> d).
Proof.
  intros H1 H2 H3. unfold same_graph.
  rewrite !lookup_insert_ne by assumption. repeat split.
Qed.

Lemma random_walk_pe_same_graph (L : nat) (d1 d2 : gmap string attr) :
  same_graph d1 d2 ->
  AddRandomWalkPE.random_walk_pe L d2 = AddRandomWalkPE.random_walk_pe L d1.
Proof.
  intros H. destruct (same_graph_reads d1 d2 H) as [Hei [Hw [Hn He]]].
  unfold AddRandomWalkPE.random_walk_pe, AddRandomWalkPE.transition_value,
    AddRandomWalkPE.edge_value.
  rewrite Hei, Hw, Hn, He. reflexivity.
Qed.

Lemma node2vec_same_graph (dim : nat) (w : world) (d1 d2 : gmap string attr) :
  same_graph d1 d2 -> node2vec d2 dim w = node2vec d1 dim w.
Proof.
  intros H. destruct (same_graph_reads d1 d2 H) as [Hei _].
  unfold node2vec. rewrite Hei. reflexivity.
Qed.

Lemma laplacian_call_same_graph (k : nat) (name : string) (u : bool) (w : world)
  (d1 d2 d1' : gmap string attr) (w' : world) :
  same_graph d1 d2 ->
  AddLaplacianEigenvectorPE_call k (Some name) u d1 w = Ok (d1', w') ->
  exists pe,
    d1' = <[name := ATensor pe]> d1 /\
    AddLaplacianEigenvectorPE_call k (Some name) u d2 w
    = Ok (<[name := ATensor pe]> d2, w').
Proof.
  intros H Hcall. destruct (same_graph_reads d1 d2 H) as [Hei [_ [Hn _]]].
  unfold AddLaplacianEigenvectorPE_call in *. rewrite <- Hei, <- Hn.
  destruct (data_num_nodes d1) as [N|]; [|discriminate].
  destruct (data_edge_index d1) as [ei|]; [|discriminate].
  cbn [of_option rbind] in *.
  destruct ((if negb u then eigs else eigsh) _ _ _) as [[vals vecs]|]; [|discriminate].
  cbn [rbind] in *.
  destruct (select_columns vecs (argsort vals)) as [cols|]; [|discriminate].
  cbn [rbind] in *. unfold randint in *.
  destruct (imul_rows _ _) as [pe|]; [|discriminate].
  cbn [rbind add_node_attr] in *. injection Hcall as <- <-.
  exists pe. split; reflexivity.
Qed.

(** C9, as the code has it. The spectral and the diffusion transform
    attach their result to the object they are given, under their own
    attribute name, and leave the edge index, the edge weights and the node
    features as they were; the trainer only reads. The encodings are the
    same on any two objects that agree on these three fields, so they do
    not depend on what other encoders attached before. *)
Theorem encoders_keep_graph (data data2 : gmap string attr) :
  same_graph data data2 ->
  (forall L, AddRandomWalkPE.random_walk_pe L data2
             = AddRandomWalkPE.random_walk_pe L data) /\
  (forall dim w, node2vec data2 dim w = node2vec data dim w) /\
  (forall k u w d' w',
      AddLaplacianEigenvectorPE_call k laplacian_attr_name u data w = Ok (d', w') ->
      exists pe,
        d' = <["laplacian_eigenvector_pe"%string := ATensor pe]> data /\
        same_graph data d' /\
        AddLaplacianEigenvectorPE_call k laplacian_attr_name u data2 w
        = Ok (<["laplacian_eigenvector_pe"%string := ATensor pe]> data2, w')) /\
  (forall L d',
      AddRandomWalkPE.forward L AddRandomWalkPE.default_attr_name data = Ok d' ->
      exists pe,
        d' = <["random_walk_pe"%string := ATensor pe]> data /\
        same_graph data d' /\
        AddRandomWalkPE.forward L AddRandomWalkPE.default_attr_name data2
        = Ok (<["random_walk_pe"%string := ATensor pe]> data2)).
Proof.
  intros H. split; [intros L; apply random_walk_pe_same_graph; exact H|].
  split; [intros dim w; apply node2vec_same_graph; exact H|]. split.
  - intros k u w d' w' Hcall.
    destruct (laplacian_call_same_graph k _ u w data data2 d' w' H Hcall)
      as [pe [-> Hcall2]].
    exists pe. split; [reflexivity|]. split; [|exact Hcall2].
    apply same_graph_insert; discriminate.
  - intros L d' Hfwd. unfold AddRandomWalkPE.forward in *.
    rewrite (random_walk_pe_same_graph L data data2 H).
    destruct (AddRandomWalkPE.random_walk_pe L data) as [pe|]; [|discriminate].
    cbn [rbind add_node_attr AddRandomWalkPE.default_attr_name] in *.
    injection Hfwd as <-. exists pe. split; [reflexivity|].
    split; [|reflexivity]. apply same_graph_insert; discriminate.
Qed.

(** ** The blocks and their assembly *)

Lemma minmax_rows (x : list (list Q)) :
  exists g : Q -> npfloat, minmax x = map (map g) x.
Proof.
  unfold minmax. destruct (0 <? np_size x); eexists; reflexivity.
Qed.

Lemma minmax_width (x : list (list Q)) (P : nat -> Prop) :
  Forall (fun r => P (length r)) x -> Forall (fun r => P (length r)) (minmax x).
Proof.
  intros H. destruct (minmax_rows x) as [g ->].
  apply List.Forall_forall. intros r Hr. apply in_map_iff in Hr as [r0 [<- Hr0]].
  rewrite length_map. rewrite List.Forall_forall in H. exact (H r0 Hr0).
Qed.

Lemma cat_last_Ok {A} (x y pe : list (list A)) :
  cat_last x y = Ok pe ->
  length x = length y /\
  pe = map (fun p : list A * list A => fst p ++ snd p) (combine x y).
Proof.
  unfold cat_last. destruct (length x =? length y) eqn:E; [|discriminate].
  intros H. injection H as <-. apply Nat.eqb_eq in E. split; [exact E | reflexivity].
Qed.

Lemma cat_width {A} (x y : list (list A)) (p q : Z) :
  Forall (fun r => Z.of_nat (length r) = p) x ->
  Forall (fun r => Z.of_nat (length r) = q) y ->
  Forall (fun r => Z.of_nat (length r) = (p + q)%Z)
    (map (fun p : list A * list A => fst p ++ snd p) (combine x y)).
Proof.
  intros Hx. revert y. induction Hx as [|r x Hr _ IH]; intros y Hy; simpl.
  - constructor.
  - destruct Hy as [|s y Hs Hy]; simpl; constructor.
    + rewrite length_app. simpl. lia.
    + apply IH. exact Hy.
Qed.

Lemma repeat_nil_width {A} (n : nat) :
  Forall (fun r : list A => length r = 0) (repeat [] n).
Proof. induction n; simpl; constructor; [reflexivity | assumption]. Qed.

Lemma index_select_In {A} (t : list A) (index : list nat) (l : list A) :
  index_select t index = Ok l -> Forall (fun x => In x t) l.
Proof.
  revert l. induction index as [|i index IH]; simpl; intros l H.
  - injection H as <-. constructor.
  - inv_bind H. inv_bind H. injection H as <-. constructor; [|eauto].
    destruct (t !! i) as [y|] eqn:E; simpl in Hx; [|discriminate].
    injection Hx as <-. apply list_elem_of_In. eapply list_elem_of_lookup_2. exact E.
Qed.

Section Contracts.

(** What the module relies on from the libraries: a solver asked for [k]
    eigenpairs returns [k] values and vectors with [k] columns, and the
    embedding table of the trainer has [dim] columns throughout. *)
Hypothesis eigs_shape : forall L k wh vals vecs,
  eigs L k wh = Ok (vals, vecs) ->
  length vals = k /\ Forall (fun r => length r = k) vecs.
Hypothesis init_shape : forall ei dim g,
  Forall (fun r => length r = dim) (fst (Node2Vec_init ei dim g)).
Hypothesis train_shape : forall ei m g dim,
  Forall (fun r => length r = dim) m ->
  Forall (fun r => length r = dim) (fst (train_epoch ei m g)).

Lemma train_loop_shape (n : nat) (ei : list (nat * nat)) (m : list (list Q))
  (g dim : nat) :
  Forall (fun r => length r = dim) m ->
  Forall (fun r => length r = dim) (fst (train_loop n ei m g)).
Proof.
  revert m g. induction n as [|n IH]; intros m g Hm; simpl; [exact Hm|].
  pose proof (train_shape ei m g dim Hm) as H.
  destruct (train_epoch ei m g) as [m' g']. apply IH. exact H.
Qed.

Lemma spectral_block_width (le_size : Z) (A : list (list nat))
  (data data' : gmap string attr) (w w' : world) (pe : list (list Q)) :
  spectral_block le_size A data w = Ok (Some pe, data', w') ->
  Forall (fun r => Z.of_nat (length r) = le_size) pe.
Proof.
  unfold spectral_block. destruct (0 <? le_size)%Z eqn:Hpos.
  - apply Z.ltb_lt in Hpos. intros H. inv_bind H. destruct x as [d1 w1].
    inv_bind H. injection H as <- _ _.
    unfold AddLaplacianEigenvectorPE_call in Hx.
    destruct (data_num_nodes data) as [N|] eqn:HN; [|discriminate].
    destruct (data_edge_index data) as [ei|] eqn:Hei; [|discriminate].
    cbn [of_option rbind negb] in Hx.
    destruct (eigs (get_laplacian ei N) (Z.to_nat le_size + 1) SR)
      as [[vals vecs]|] eqn:Hs; [|discriminate].
    destruct (eigs_shape _ _ _ _ _ Hs) as [Hvals Hvecs].
    pose proof (laplacian_call_Ok (Z.to_nat le_size) "laplacian_eigenvector_pe"
                  false data w N ei vals vecs HN Hei Hs Hvals Hvecs) as Hcall.
    unfold AddLaplacianEigenvectorPE_call in Hcall.
    rewrite HN, Hei in Hcall. cbn [of_option rbind negb] in Hcall.
    rewrite Hs in Hcall. unfold laplacian_attr_name in Hx.
    rewrite Hcall in Hx. injection Hx as <- _.
    unfold get_tensor_attr in Hx0. rewrite lookup_insert_eq in Hx0.
    injection Hx0 as <-.
    destruct (laplacian_pe_shape (Z.to_nat le_size) (rng w) vals vecs Hvals)
      as [_ Hw].
    eapply List.Forall_impl; [|exact Hw]. intros r Hr. cbv beta in Hr. lia.
  - destruct (le_size =? 0)%Z eqn:Hz; [|discriminate].
    apply Z.eqb_eq in Hz. intros H. injection H as <- _ _.
    eapply List.Forall_impl; [|apply repeat_nil_width].
    intros r Hr. cbv beta in Hr. lia.
Qed.

Lemma learned_block_width (n2v_size : Z) (A : list (list nat))
  (data : gmap string attr) (w w' : world) (pe : list (list Q)) :
  learned_block n2v_size A data w = Ok (Some pe, w') ->
  Forall (fun r => Z.of_nat (length r) = n2v_size) pe.
Proof.
  unfold learned_block. destruct (0 <? n2v_size)%Z eqn:Hpos.
  - apply Z.ltb_lt in Hpos. intros H. inv_bind H. destruct x as [model w1].
    inv_bind H. inv_bind H. injection H as <- _.
    unfold node2vec in Hx. inv_bind Hx.
    pose proof (init_shape x1 (Z.to_nat n2v_size) (rng w)) as Hinit.
    destruct (Node2Vec_init x1 (Z.to_nat n2v_size) (rng w)) as [m0 g0].
    pose proof (train_loop_shape 21 x1 m0 g0 _ Hinit) as Htrain.
    destruct (train_loop 21 x1 m0 g0) as [m1 g1].
    injection Hx as <- _. simpl in Htrain.
    apply index_select_In in Hx1.
    apply List.Forall_forall. intros r Hr.
    rewrite List.Forall_forall in Hx1, Htrain.
    rewrite (Htrain r (Hx1 r Hr)). lia.
  - destruct (n2v_size =? 0)%Z eqn:Hz; [|discriminate].
    apply Z.eqb_eq in Hz. intros H. injection H as <- _.
    eapply List.Forall_impl; [|apply repeat_nil_width].
    intros r Hr. cbv beta in Hr. lia.
Qed.

(** C3. Whenever the pipeline returns, the matrix it returns and writes has
    [le_size + n2v_size] columns: each row is a row of the normalised
    spectral block followed by the row of the normalised learned block.
    The diffusion block is computed and left out. *)
Theorem compute_pos_enc_columns (args : Args) (le_size rw_size n2v_size : Z)
  (norm : bool) (device : string) (w w' : world) (pe : list (list npfloat)) :
  compute_pos_enc args le_size rw_size n2v_size norm device w = Ok (pe, w') ->
  exists A w1 data1 w2 pe_rw w3 spectral learned w4,
    read_adjacency (adj_path args) w = Ok (A, w1) /\
    spectral_block le_size A (make_data (edge_index_of A) device) w1
    = Ok (Some spectral, data1, w2) /\
    diffusion_block rw_size A data1 w2 = Ok (pe_rw, w3) /\
    learned_block n2v_size A data1 w3 = Ok (Some learned, w4) /\
    Forall (fun r => Z.of_nat (length r) = le_size) spectral /\
    Forall (fun r => Z.of_nat (length r) = n2v_size) learned /\
    length spectral = length learned /\
    pe = map (fun p : list npfloat * list npfloat => fst p ++ snd p)
           (combine (minmax spectral) (minmax learned)) /\
    Forall (fun r => Z.of_nat (length r) = (le_size + n2v_size)%Z) pe /\
    fs w' !! pe_path_from args = Some (TFloat pe).
Proof.
  intros H. unfold compute_pos_enc in H.
  inv_bind H. destruct x as [A w1].
  inv_bind H. destruct x as [[pe_le data1] w2].
  inv_bind H. destruct x as [pe_rw w3].
  inv_bind H. destruct x as [pe_n2v w4].
  inv_bind H. injection H as <- <-.
  unfold assemble in Hx3.
  destruct pe_le as [spectral|]; [|discriminate].
  destruct pe_n2v as [learned|]; [|discriminate].
  cbn [of_option rbind map concatenate] in Hx3.
  apply cat_last_Ok in Hx3 as [Hlen ->].
  pose proof (spectral_block_width _ _ _ _ _ _ _ Hx0) as Hs.
  pose proof (learned_block_width _ _ _ _ _ _ Hx2) as Hl.
  exists A, w1, data1, w2, pe_rw, w3, spectral, learned, w4.
  repeat (split; [assumption|]).
  split.
  { destruct (minmax_rows spectral) as [g1 E1], (minmax_rows learned) as [g2 E2].
    rewrite E1, E2, !length_map in Hlen. exact Hlen. }
  split; [reflexivity|]. split.
  - apply cat_width.
    + apply (minmax_width spectral (fun n => Z.of_nat n = le_size)). exact Hs.
    + apply (minmax_width learned (fun n => Z.of_nat n = n2v_size)). exact Hl.
  - unfold to_parquet, log. cbn [fs]. apply lookup_insert_eq.
Qed.

End Contracts.

(** For [le_size = 0] the spectral block is built on the spot, one empty
    row per row of the adjacency table, and the world is left as it was:
    no solver is called. *)
Lemma spectral_block_zero (A : list (list nat)) (data : gmap string attr)
  (w : world) :
  spectral_block 0 A data w = Ok (Some (repeat [] (length A)), data, w).
Proof. reflexivity. Qed.

(** C10. The parameter [norm] of [compute_pos_enc] and [pos_enc] has no
    effect: the blocks are min-max normalised whatever its value. *)
Theorem norm_parameter_ignored (args : Args) (le_size rw_size n2v_size : Z)
  (norm1 norm2 use_cached : bool) (device : string) (w : world) :
  compute_pos_enc args le_size rw_size n2v_size norm1 device w
  = compute_pos_enc args le_size rw_size n2v_size norm2 device w /\
  pos_enc args le_size rw_size n2v_size norm1 use_cached device w
  = pos_enc args le_size rw_size n2v_size norm2 use_cached device w /\
  forall pe_le pe_n2v : list (list Q),
    assemble (Some pe_le) (Some pe_n2v) = cat_last (minmax pe_le) (minmax pe_n2v).
Proof. repeat split. Qed.

(** ** The cache *)

Lemma compute_pos_enc_writes (args : Args) (le_size rw_size n2v_size : Z)
  (norm : bool) (device : string) (w w' : world) (pe : list (list npfloat)) :
  compute_pos_enc args le_size rw_size n2v_size norm device w = Ok (pe, w') ->
  fs w' !! pe_path_from args = Some (TFloat pe).
Proof.
  intros H. unfold compute_pos_enc in H.
  inv_bind H. destruct x as [A w1].
  inv_bind H. destruct x as [[pe_le data1] w2].
  inv_bind H. destruct x as [pe_rw w3].
  inv_bind H. destruct x as [pe_n2v w4].
  inv_bind H. injection H as <- <-.
  unfold to_parquet, log. cbn [fs]. apply lookup_insert_eq.
Qed.

(** C2, as the code has it. With [use_cached] set and a file at
    [args.pe_path], [pos_enc] returns the table read from [args.pe_path]
    and calls no encoder; otherwise it runs [compute_pos_enc], which leaves
    the returned matrix at the path derived by [pe_path_from]. When
    [args.pe_path] is that derived path, a further call with [use_cached]
    set returns the same matrix and only reads the file. *)
Theorem pos_enc_cache (args : Args) (le_size rw_size n2v_size : Z)
  (norm : bool) (device : string) (w : world) :
  (forall t, fs w !! pe_path args = Some t ->
     pos_enc args le_size rw_size n2v_size norm true device w
     = Ok (to_numpy t, log (EvReadParquet (pe_path args)) w)) /\
  (forall use_cached, use_cached = false \/ fs w !! pe_path args = None ->
     pos_enc args le_size rw_size n2v_size norm use_cached device w
     = compute_pos_enc args le_size rw_size n2v_size norm device w) /\
  (forall pe w',
     compute_pos_enc args le_size rw_size n2v_size norm device w = Ok (pe, w') ->
     fs w' !! pe_path_from args = Some (TFloat pe)) /\
  (pe_path args = pe_path_from args ->
   forall use_cached pe w',
     pos_enc args le_size rw_size n2v_size norm use_cached device w = Ok (pe, w') ->
     pos_enc args le_size rw_size n2v_size norm true device w'
     = Ok (pe, log (EvReadParquet (pe_path args)) w')).
Proof.
  assert (Hhit : forall w0 t, fs w0 !! pe_path args = Some t ->
            pos_enc args le_size rw_size n2v_size norm true device w0
            = Ok (to_numpy t, log (EvReadParquet (pe_path args)) w0)).
  { intros w0 t Ht. unfold pos_enc, path_exists. rewrite Ht. reflexivity. }
  split; [apply Hhit|]. split.
  { intros use_cached [-> | Hnone]; unfold pos_enc, path_exists.
    - reflexivity.
    - rewrite Hnone, andb_false_r. reflexivity. }
  split; [intros pe w'; apply compute_pos_enc_writes|].
  intros Hpath use_cached pe w' H.
  unfold pos_enc in H.
  destruct (use_cached && path_exists (pe_path args) w) eqn:Hc.
  - unfold path_exists in Hc. destruct (fs w !! pe_path args) as [t|] eqn:Ht.
    + cbn [of_option rbind] in H. injection H as <- <-.
      apply (Hhit (log (EvReadParquet (pe_path args)) w) t). exact Ht.
    + rewrite andb_false_r in Hc. discriminate.
  - apply compute_pos_enc_writes in H. rewrite <- Hpath in H.
    apply (Hhit w' (TFloat pe) H).
Qed.

(** * Further properties of the module *)

(** ** [get_self_loop_attr] on its own *)

Lemma index_put_length {A} (index : list nat) (src t t' : list A) :
  index_put t index src = Ok t' -> length t' = length t.
Proof.
  revert src t. induction index as [|i index IH]; intros [|v src] t H; simpl in H;
    try (injection H as <-; reflexivity).
  destruct (i <? length t); [|discriminate].
  rewrite (IH _ _ H). apply length_insert.
Qed.

Lemma index_put_in_range {A} (index : list nat) (src t : list A) :
  Forall (fun i => i < length t) index ->
  exists t', index_put t index src = Ok t'.
Proof.
  revert src t. induction index as [|i index IH]; intros src t H; simpl.
  - destruct src; eauto.
  - destruct src as [|v src]; [eauto|].
    inversion H as [|? ? Hi Hrest]; subst. apply Nat.ltb_lt in Hi as Hb.
    rewrite Hb. apply IH. rewrite length_insert. exact Hrest.
Qed.


Lemma list_max_nat_ge (l : list nat) (x : nat) : In x l -> x <= list_max_nat l.
Proof.
  induction l as [|a l IH]; simpl; [intros [] | intros [<- | H]]; [lia|].
  specialize (IH H). lia.
Qed.

Lemma maybe_num_nodes_bound (ei : list (nat * nat)) (e : nat * nat) :
  In e ei -> fst e < maybe_num_nodes ei None /\ snd e < maybe_num_nodes ei None.
Proof.
  intros He. unfold maybe_num_nodes. destruct ei as [|e0 ei']; [destruct He|].
  set (ei := e0 :: ei') in *.
  assert (H1 : fst e <= list_max_nat (map fst ei ++ map snd ei)).
  { apply list_max_nat_ge, in_or_app. left. apply in_map. exact He. }
  assert (H2 : snd e <= list_max_nat (map fst ei ++ map snd ei)).
  { apply list_max_nat_ge, in_or_app. right. apply in_map. exact He. }
  lia.
Qed.

(** X1. Without edge attributes the result is the indicator of the
    self-loops: one entry per node, 1 where the edge list holds a loop at
    the node and 0 elsewhere. *)
Theorem get_self_loop_attr_indicator (ei : list (nat * nat)) (N : nat) :
  Forall (fun e : nat * nat => fst e = snd e -> fst e < N) ei ->
  exists v,
    get_self_loop_attr ei None (Some N) = Ok v /\
    length v = N /\
    forall u, u < N ->
      v !! u
      = Some (if existsb (fun e : nat * nat => (fst e =? u) && (snd e =? u)) ei
              then 1%Q else 0%Q).
Proof.
  intros Hrange. unfold get_self_loop_attr. rewrite mask_select_map, map_map.
  cbn [maybe_num_nodes].
  set (S := List.filter (fun e : nat * nat => fst e =? snd e) ei).
  destruct (index_put_map fst (fun _ : nat * nat => 1%Q) S (repeat 0%Q N))
    as [v [Hput [Hlen [Hkeep Hset]]]].
  { apply List.Forall_forall. intros e He. rewrite repeat_length.
    apply filter_In in He as [He Hloop]. apply Nat.eqb_eq in Hloop.
    rewrite List.Forall_forall in Hrange. exact (Hrange e He Hloop). }
  exists v. split; [exact Hput|]. rewrite repeat_length in Hlen.
  split; [exact Hlen|]. intros u Hu.
  destruct (existsb _ ei) eqn:Hex.
  - apply Hset; [reflexivity|]. apply existsb_exists in Hex as [e [He Hu']].
    apply andb_true_iff in Hu' as [H1 H2].
    apply Nat.eqb_eq in H1, H2. exists e. split; [|exact H1].
    apply filter_In. split; [exact He|]. apply Nat.eqb_eq. congruence.
  - rewrite Hkeep; [apply repeat_lookup; exact Hu|].
    intros e He Hfst. apply filter_In in He as [He Hloop].
    apply Nat.eqb_eq in Hloop.
    assert (Hc : existsb (fun e : nat * nat => (fst e =? u) && (snd e =? u)) ei = true).
    { apply existsb_exists. exists e. split; [exact He|].
      apply andb_true_iff. split; apply Nat.eqb_eq; congruence. }
    congruence.
Qed.


Lemma mask_select_length {A B} (l1 : list A) (l2 : list B) (m : list bool) :
  length l1 = length l2 -> length (mask_select l1 m) = length (mask_select l2 m).
Proof.
  unfold mask_select. rewrite !length_map. revert l2 m.
  induction l1 as [|a l1 IH]; intros [|b l2] m H; simpl in *; try discriminate;
    [reflexivity|].
  destruct m as [|[|] m]; simpl; [reflexivity | f_equal |]; apply IH; lia.
Qed.

(** Every position of the result of an assignment either keeps its value,
    no index naming it, or holds the value one of the writes put there. *)
Lemma index_put_writer {A} (index : list nat) (src t t' : list A) :
  length index = length src ->
  index_put t index src = Ok t' ->
  forall u,
    ((forall k, index !! k <> Some u) /\ t' !! u = t !! u) \/
    (exists k v, index !! k = Some u /\ src !! k = Some v /\ t' !! u = Some v).
Proof.
  revert src t. induction index as [|i index IH]; intros [|v src] t Hlen H u;
    simpl in *; try discriminate.
  - injection H as <-. left. split; [intros k; destruct k; discriminate | reflexivity].
  - destruct (i <? length t) eqn:Hi; [|discriminate]. apply Nat.ltb_lt in Hi.
    destruct (IH src (<[i := v]> t) ltac:(lia) H u) as [[Hno Hkeep] | [k [x [Hk [Hs Hv]]]]].
    + destruct (Nat.eq_dec i u) as [-> | Hne].
      * right. exists 0, v. repeat split. rewrite Hkeep.
        apply list_lookup_insert_eq. exact Hi.
      * left. split.
        -- intros [|k]; simpl; [congruence | apply Hno].
        -- rewrite Hkeep. apply list_lookup_insert_ne. exact Hne.
    + right. exists (S k), x. repeat split; assumption.
Qed.

(** A selected element comes from a position where the mask is set. *)
Lemma mask_select_lookup {A B} (l1 : list A) (l2 : list B) (m : list bool)
  (k : nat) (a : A) (b : B) :
  length l1 = length m -> length l2 = length m ->
  mask_select l1 m !! k = Some a -> mask_select l2 m !! k = Some b ->
  exists p, l1 !! p = Some a /\ l2 !! p = Some b /\ m !! p = Some true.
Proof.
  unfold mask_select. revert l1 l2 k.
  induction m as [|c m IH]; intros [|x l1] [|y l2] k H1 H2 Ha Hb; simpl in *;
    try discriminate.
  destruct c; simpl in *.
  - destruct k as [|k]; simpl in *.
    + injection Ha as <-. injection Hb as <-. exists 0. repeat split.
    + destruct (IH l1 l2 k ltac:(lia) ltac:(lia) Ha Hb) as [p Hp].
      exists (S p). exact Hp.
  - destruct (IH l1 l2 k ltac:(lia) ltac:(lia) Ha Hb) as [p Hp].
    exists (S p). exact Hp.
Qed.

(** X3. With edge attributes, the entry of a node is the attribute of one
    of the self-loops at the node, and 0 when it has none: the attributes
    of parallel self-loops are not added up. *)
Theorem get_self_loop_attr_picks_one (ei : list (nat * nat)) (attr : list Q)
  (N : nat) :
  length attr = length ei ->
  Forall (fun e : nat * nat => fst e = snd e -> fst e < N) ei ->
  exists v,
    get_self_loop_attr ei (Some attr) (Some N) = Ok v /\
    length v = N /\
    forall u, u < N ->
      (exists p a, ei !! p = Some (u, u) /\ attr !! p = Some a /\ v !! u = Some a) \/
      ((forall p, ei !! p <> Some (u, u)) /\ v !! u = Some 0%Q).
Proof.
  intros Hlen Hrange. unfold get_self_loop_attr. cbn [maybe_num_nodes].
  set (mask := map (fun e : nat * nat => fst e =? snd e) ei).
  assert (Hm1 : length (map fst ei) = length mask)
    by (unfold mask; rewrite !length_map; reflexivity).
  assert (Hm2 : length attr = length mask)
    by (unfold mask; rewrite length_map; exact Hlen).
  destruct (index_put_in_range (mask_select (map fst ei) mask)
              (mask_select attr mask) (repeat 0%Q N)) as [v Hput].
  { rewrite repeat_length. unfold mask. rewrite mask_select_map.
    apply List.Forall_forall. intros i Hi.
    apply in_map_iff in Hi as [e [<- He]]. apply filter_In in He as [He Hloop].
    apply Nat.eqb_eq in Hloop. rewrite List.Forall_forall in Hrange.
    exact (Hrange e He Hloop). }
  exists v. split; [exact Hput|].
  assert (Hl : length v = N)
    by (rewrite (index_put_length _ _ _ _ Hput); apply repeat_length).
  split; [exact Hl|]. intros u Hu.
  assert (Hsel : length (mask_select (map fst ei) mask)
                 = length (mask_select attr mask))
    by (apply mask_select_length; rewrite length_map; congruence).
  destruct (index_put_writer _ _ _ _ Hsel Hput u) as [[Hno Hkeep] | [k [a [Hk [Hs Hv]]]]].
  - right. split; [|rewrite Hkeep; apply repeat_lookup; exact Hu].
    intros p Hp.
    assert (Hin : In u (mask_select (map fst ei) mask)).
    { unfold mask. rewrite mask_select_map. apply in_map_iff. exists (u, u).
      split; [reflexivity|]. apply filter_In. split; [|apply Nat.eqb_refl].
      apply list_elem_of_In. eapply list_elem_of_lookup_2. exact Hp. }
    apply (In_nth _ _ 0) in Hin as [k [Hk Hnth]].
    apply (Hno k).
    destruct (nth_lookup_or_length (mask_select (map fst ei) mask) k 0) as [H | H];
      [rewrite Hnth in H; exact H | lia].
  - left. destruct (mask_select_lookup _ _ _ _ _ _ Hm1 Hm2 Hk Hs) as [p [H1 [H2 H3]]].
    exists p, a. split; [|split; assumption].
    unfold mask in H3.
    destruct (ei !! p) as [[s d]|] eqn:Hp.
    + rewrite (lookup_map fst _ _ _ Hp) in H1.
      rewrite (lookup_map (fun e : nat * nat => fst e =? snd e) _ _ _ Hp) in H3.
      cbn [fst snd] in *.
      injection H1 as ->. injection H3 as H3. apply Nat.eqb_eq in H3. subst. reflexivity.
    + exfalso. apply lookup_ge_None in Hp. apply lookup_lt_Some in H1.
      rewrite length_map in H1. lia.
Qed.

(** ** [add_node_attr] on its own *)



(** ** More on the walk *)


(** The lists behind the encoding: the transition values, the diagonals
    collected by the walk, and what they hold. *)
Lemma random_walk_pe_lists (L : nat) (data : gmap string attr)
  (ei : list (nat * nat)) (N : nat) :
  data_edge_index data = Some ei ->
  data_num_nodes data = Some N ->
  Forall (fun e : nat * nat => fst e < N) ei ->
  exists value pe_list,
    AddRandomWalkPE.transition_value data (map fst ei) N = Ok value /\
    value = map (fun u => (1 / clamp_min 1
                   (out_weight (AddRandomWalkPE.edge_value data) (map fst ei) u))%Q)
              (map fst ei) /\
    AddRandomWalkPE.get_pe N (if N <=? 2000 then Some (seq 0 N) else None)
      (to_torch_csr_tensor ei value N) = Ok (nth 0 pe_list []) /\
    AddRandomWalkPE.walk (L - 1) N (if N <=? 2000 then Some (seq 0 N) else None)
      (to_torch_csr_tensor ei value N) (to_torch_csr_tensor ei value N)
      [nth 0 pe_list []] = Ok pe_list /\
    length pe_list = S (L - 1) /\
    Forall (fun v => length v = N) pe_list /\
    AddRandomWalkPE.random_walk_pe L data = AddRandomWalkPE.stack_last pe_list /\
    forall t u, t < S (L - 1) -> u < N ->
      (nth u (nth t pe_list []) 0
       == t_at (matrix_power (to_torch_csr_tensor ei value N) (S t)) u u)%Q.
Proof.
  intros Hei HN Hrange.
  assert (Hrow : Forall (fun u => u < N) (map fst ei)).
  { apply List.Forall_forall. intros u Hu. apply in_map_iff in Hu as [e [<- He]].
    rewrite List.Forall_forall in Hrange. apply (Hrange e He). }
  pose proof (transition_value_Ok data (map fst ei) N Hrow) as Hval.
  set (value := map _ (map fst ei)) in Hval.
  set (M := to_torch_csr_tensor ei value N).
  destruct (get_pe_sparse N (if N <=? 2000 then Some (seq 0 N) else None) M
              eq_refl eq_refl) as [pe0 [Hpe0 [Hlen0 Hdiag0]]].
  destruct (walk_powers (L - 1) N 1 (if N <=? 2000 then Some (seq 0 N) else None)
              M M [pe0] eq_refl eq_refl eq_refl eq_refl (matrix_power_1 M))
    as [vs [Hwalk [Hvs Hspec]]].
  exists value, ([pe0] ++ vs). split; [exact Hval|]. split; [reflexivity|].
  split; [exact Hpe0|].
  split; [exact Hwalk|]. split; [simpl; rewrite Hvs; reflexivity|]. split.
  { constructor; [exact Hlen0|]. apply List.Forall_forall. intros v Hv.
    apply (In_nth _ _ []) in Hv as [j [Hj <-]]. apply Hspec. lia. }
  split.
  { unfold AddRandomWalkPE.random_walk_pe. rewrite Hei, HN. cbn [of_option rbind].
    rewrite Hval. cbn [rbind]. unfold AddRandomWalkPE.transition_operator.
    fold M. rewrite Hpe0. cbn [rbind]. rewrite Hwalk. reflexivity. }
  intros [|t] u Ht Hu.
  - simpl. rewrite (Hdiag0 u Hu). apply (matrix_power_1 M); exact Hu.
  - cbn [app nth]. destruct (Hspec t) as [_ Hd]; [lia|]. rewrite (Hd u Hu).
    reflexivity.
Qed.

Lemma stack_last_rows (pe_list pe : list (list Q)) (N u : nat) :
  pe_list <> [] -> Forall (fun v => length v = N) pe_list ->
  AddRandomWalkPE.stack_last pe_list = Ok pe -> u < N ->
  nth u pe [] = map (fun v => nth u v 0%Q) pe_list.
Proof.
  intros Hne Hall Hstack Hu.
  destruct (stack_last_spec pe_list N Hne Hall) as [pe' [Hs [Hlen [Hwidth Hnth]]]].
  rewrite Hstack in Hs. injection Hs as <-.
  apply (nth_ext _ _ 0%Q 0%Q).
  - rewrite length_map. rewrite List.Forall_forall in Hwidth. apply Hwidth.
    apply nth_In. lia.
  - intros t Ht. rewrite (Hnth u t Hu).
    rewrite List.Forall_forall in Hwidth.
    rewrite (Hwidth (nth u pe [])) in Ht by (apply nth_In; lia).
    symmetry.
    rewrite (nth_indep (map (fun v => nth u v 0%Q) pe_list) 0%Q (nth u [] 0%Q))
      by (rewrite length_map; exact Ht).
    apply (map_nth (fun v => nth u v 0%Q)).
Qed.


(** ** Return probabilities are probabilities *)

Lemma sumQ_plus (f g : nat -> Q) (n : nat) :
  (sumQ (fun k => f k + g k) n == sumQ f n + sumQ g n)%Q.
Proof.
  induction n as [|n IH]; [reflexivity|]. rewrite !sumQ_S, IH. ring.
Qed.

Lemma sumQ_scal (c : Q) (f : nat -> Q) (n : nat) :
  (sumQ (fun k => f k * c) n == sumQ f n * c)%Q.
Proof.
  induction n as [|n IH]; [unfold sumQ; simpl; ring|]. rewrite !sumQ_S, IH. ring.
Qed.

Lemma sumQ_le (f g : nat -> Q) (n : nat) :
  (forall k, k < n -> (f k <= g k)%Q) -> (sumQ f n <= sumQ g n)%Q.
Proof.
  induction n as [|n IH]; intros H; [apply Qle_refl|]. rewrite !sumQ_S.
  apply Qplus_le_compat; [apply IH; intros k Hk; apply H; lia | apply H; lia].
Qed.

Lemma sumQ_nonneg (f : nat -> Q) (n : nat) :
  (forall k, k < n -> (0 <= f k)%Q) -> (0 <= sumQ f n)%Q.
Proof.
  intros H. rewrite <- (sumQ_zero (fun _ => 0%Q) n) by reflexivity.
  apply sumQ_le. exact H.
Qed.

Lemma sumQ_term_le (f : nat -> Q) (n u : nat) :
  (forall k, k < n -> (0 <= f k)%Q) -> u < n -> (f u <= sumQ f n)%Q.
Proof.
  induction n as [|n IH]; intros H Hu; [lia|]. rewrite sumQ_S.
  assert (Hn : (0 <= sumQ f n)%Q) by (apply sumQ_nonneg; intros k Hk; apply H; lia).
  assert (Hfn : (0 <= f n)%Q) by (apply H; lia).
  destruct (Nat.eq_dec u n) as [-> | Hne].
  - lra.
  - assert (Hu' : (f u <= sumQ f n)%Q) by (apply IH; [intros k Hk; apply H; lia | lia]).
    lra.
Qed.

Lemma sumQ_swap (f : nat -> nat -> Q) (m n : nat) :
  (sumQ (fun j => sumQ (fun k => f j k) n) m
   == sumQ (fun k => sumQ (fun j => f j k) m) n)%Q.
Proof.
  induction m as [|m IH].
  - symmetry. apply sumQ_zero. reflexivity.
  - rewrite sumQ_S, IH.
    assert (E : (sumQ (fun k => sumQ (fun j => f j k) (S m)) n
                 == sumQ (fun k => sumQ (fun j => f j k) m + f m k) n)%Q)
      by (apply sumQ_ext; intros k _; exact (sumQ_S (fun j => f j k) m)).
    rewrite E, sumQ_plus. reflexivity.
Qed.

Lemma clamp_min_ge (m x : Q) : (m <= clamp_min m x)%Q /\ (x <= clamp_min m x)%Q.
Proof.
  unfold clamp_min. destruct (Qle_bool m x) eqn:H.
  - apply Qle_bool_iff in H. split; [exact H | apply Qle_refl].
  - split; [apply Qle_refl|]. destruct (Qlt_le_dec x m) as [Hlt | Hle].
    + apply Qlt_le_weak. exact Hlt.
    + apply Qle_bool_iff in Hle. congruence.
Qed.

Lemma sum_list_Q_nonneg (l : list Q) :
  Forall (fun x => 0 <= x)%Q l -> (0 <= sum_list_Q l)%Q.
Proof.
  induction 1 as [|x l Hx _ IH]; simpl; [apply Qle_refl | lra].
Qed.

Lemma mask_select_In {A} (v : list A) (m : list bool) (x : A) :
  In x (mask_select v m) -> In x v.
Proof.
  unfold mask_select. intros H. apply in_map_iff in H as [[y b] [<- H]].
  apply filter_In in H as [H _]. apply in_combine_l in H. exact H.
Qed.

(** The sum of a row of the CSR tensor is the value leaving the node. *)
Lemma csr_row_sum (ei : list (nat * nat)) (value : list Q) (N i : nat) :
  Forall (fun e : nat * nat => snd e < N) ei ->
  (sumQ (fun j => t_at (to_torch_csr_tensor ei value N) i j) N
   == out_weight value (map fst ei) i)%Q.
Proof.
  intros Hrange. unfold out_weight. cbn [t_at to_torch_csr_tensor].
  revert value. induction Hrange as [|e ei He _ IH]; intros value.
  - cbn [map]. replace (mask_select value []) with (@nil Q)
      by (destruct value; reflexivity).
    apply sumQ_zero. intros k _. destruct value; reflexivity.
  - destruct value as [|v value].
    { apply sumQ_zero. reflexivity. }
    cbn [map].
    etransitivity.
    { apply (sumQ_ext _
               (fun j => (if snd e =? j then 1 else 0) * (if fst e =? i then v else 0)
                         + sum_list_Q (mask_select value
                             (map (fun e0 : nat * nat => (fst e0 =? i) && (snd e0 =? j)) ei)))%Q).
      intros j _. unfold mask_select. cbn [combine List.filter snd].
      unfold sum_list_Q.
      destruct (fst e =? i), (snd e =? j); cbn [andb map fst fold_right]; ring. }
    rewrite sumQ_plus, IH.
    rewrite (sumQ_delta (fun _ => if fst e =? i then v else 0%Q) N (snd e) He).
    unfold mask_select. cbn [combine List.filter snd].
    rewrite (Nat.eqb_sym i (fst e)).
    unfold sum_list_Q.
    destruct (fst e =? i); cbn [map fst fold_right]; [reflexivity | ring].
Qed.

Lemma identity_row_sum (N i : nat) :
  i < N -> (sumQ (fun j => t_at (identity N) i j) N == 1)%Q.
Proof.
  intros Hi. cbn [t_at identity].
  etransitivity; [|apply (sumQ_delta (fun _ => 1%Q) N i Hi)].
  apply sumQ_ext. intros k _. ring.
Qed.

(** Powers of a matrix with non-negative entries and row sums at most 1
    have non-negative entries and row sums at most 1. *)
Lemma power_substochastic (M : tensor) (N t : nat) :
  t_size M = N ->
  (forall i j, i < N -> j < N -> (0 <= t_at M i j)%Q) ->
  (forall i, i < N -> (sumQ (fun j => t_at M i j) N <= 1)%Q) ->
  (forall i j, i < N -> j < N -> (0 <= t_at (matrix_power M t) i j)%Q) /\
  (forall i, i < N -> (sumQ (fun j => t_at (matrix_power M t) i j) N <= 1)%Q).
Proof.
  intros Hsize Hpos Hrow. induction t as [|t [IHpos IHrow]].
  - cbn [matrix_power]. rewrite Hsize. split.
    + intros i j _ _. simpl. destruct (i =? j); lra.
    + intros i Hi. rewrite identity_row_sum by exact Hi. apply Qle_refl.
  - cbn [matrix_power matmul t_at]. rewrite matrix_power_size, Hsize.
    set (P := matrix_power M t) in *. split.
    + intros i j Hi Hj. apply sumQ_nonneg. intros k Hk.
      apply Qmult_le_0_compat; [apply IHpos | apply Hpos]; assumption.
    + intros i Hi.
      rewrite (sumQ_swap (fun j k => t_at P i k * t_at M k j)%Q N N).
      assert (E : (sumQ (fun k => sumQ (fun j => t_at P i k * t_at M k j) N) N
                   == sumQ (fun k => sumQ (fun j => t_at M k j) N * t_at P i k) N)%Q).
      { apply sumQ_ext. intros k _. rewrite <- sumQ_scal. apply sumQ_ext.
        intros j _. ring. }
      rewrite E. eapply Qle_trans; [|apply (IHrow i Hi)].
      apply sumQ_le. intros k Hk.
      assert (H1 : (0 <= t_at P i k)%Q) by (apply IHpos; assumption).
      assert (H2 : (sumQ (fun j => t_at M k j) N <= 1)%Q) by (apply Hrow; exact Hk).
      rewrite <- (Qmult_1_l (t_at P i k)) at 2.
      apply Qmult_le_compat_r; assumption.
Qed.

Lemma transition_values_nonneg (data : gmap string attr) (row : list nat) :
  Forall (fun x => 0 <= x)%Q
    (map (fun u => (1 / clamp_min 1
                      (out_weight (AddRandomWalkPE.edge_value data) row u))%Q) row).
Proof.
  apply List.Forall_forall. intros x Hx. apply in_map_iff in Hx as [u [<- _]].
  destruct (clamp_min_ge 1 (out_weight (AddRandomWalkPE.edge_value data) row u))
    as [H1 _].
  apply Qle_shift_div_l; lra.
Qed.

Lemma csr_nonneg (ei : list (nat * nat)) (value : list Q) (N i j : nat) :
  Forall (fun x => 0 <= x)%Q value ->
  (0 <= t_at (to_torch_csr_tensor ei value N) i j)%Q.
Proof.
  intros Hv. cbn [t_at to_torch_csr_tensor]. apply sum_list_Q_nonneg.
  apply List.Forall_forall. intros x Hx. apply mask_select_In in Hx.
  rewrite List.Forall_forall in Hv. exact (Hv x Hx).
Qed.

(** With unit weights the transition values leaving a node add up to at
    most 1 (to 1 when the node has an outgoing edge, to 0 otherwise). *)
Lemma unit_row_sum (data : gmap string attr) (ei : list (nat * nat)) (i : nat) :
  data_edge_index data = Some ei -> data_edge_weight data = None ->
  (out_weight
     (map (fun u => (1 / clamp_min 1
                       (out_weight (AddRandomWalkPE.edge_value data) (map fst ei) u))%Q)
        (map fst ei))
     (map fst ei) i <= 1)%Q.
Proof.
  intros Hei Hw. rewrite out_weight_map_const.
  rewrite (edge_value_unit data ei Hei Hw).
  set (s := out_weight _ (map fst ei) i).
  assert (Hs : (s == inject_Z (Z.of_nat (length (List.filter (Nat.eqb i) (map fst ei)))))%Q)
    by apply out_weight_ones.
  rewrite <- Hs. destruct (clamp_min_ge 1 s) as [H1 H2].
  assert (E : (s * (1 / clamp_min 1 s) == s / clamp_min 1 s)%Q)
    by (field; intros H0; rewrite H0 in H1; revert H1; apply Qlt_not_le; reflexivity).
  rewrite E. apply Qle_shift_div_r; lra.
Qed.

(** X6. On a graph without edge weights every entry of the encoding is a
    probability: it lies between 0 and 1. *)
Theorem random_walk_pe_probabilities (L : nat) (data : gmap string attr)
  (ei : list (nat * nat)) (N : nat) :
  data_edge_index data = Some ei ->
  data_edge_weight data = None ->
  data_num_nodes data = Some N ->
  Forall (fun e : nat * nat => fst e < N /\ snd e < N) ei ->
  exists pe,
    AddRandomWalkPE.random_walk_pe L data = Ok pe /\
    Forall (Forall (fun x => 0 <= x /\ x <= 1)%Q) pe.
Proof.
  intros Hei Hw HN Hrange.
  assert (Hsrc : Forall (fun e : nat * nat => fst e < N) ei)
    by (eapply List.Forall_impl; [|exact Hrange]; intros e [H _]; exact H).
  assert (Hdst : Forall (fun e : nat * nat => snd e < N) ei)
    by (eapply List.Forall_impl; [|exact Hrange]; intros e [_ H]; exact H).
  destruct (random_walk_pe_lists L data ei N Hei HN Hsrc)
    as [value [pl [_ [Hveq [_ [_ [Hlen [Hall [Hrw Hdiag]]]]]]]]].
  set (M := to_torch_csr_tensor ei value N) in *.
  assert (Hne : pl <> []) by (destruct pl; [discriminate | congruence]).
  destruct (stack_last_spec pl N Hne Hall) as [pe [Hs [Hpe _]]].
  exists pe. split; [rewrite Hrw; exact Hs|].
  assert (Hpos : forall i j, i < N -> j < N -> (0 <= t_at M i j)%Q).
  { intros i j _ _. apply csr_nonneg. subst value. apply transition_values_nonneg. }
  assert (Hrow : forall i, i < N -> (sumQ (fun j => t_at M i j) N <= 1)%Q).
  { intros i _. unfold M. rewrite (csr_row_sum ei value N i Hdst). subst value.
    apply unit_row_sum; assumption. }
  apply List.Forall_forall. intros r Hr.
  apply (In_nth _ _ []) in Hr as [u [Hu <-]]. rewrite Hpe in Hu.
  rewrite (stack_last_rows pl pe N u Hne Hall Hs Hu).
  apply List.Forall_forall. intros x Hx. apply in_map_iff in Hx as [v [<- Hv]].
  apply (In_nth _ _ []) in Hv as [t [Ht <-]]. rewrite Hlen in Ht.
  rewrite (Hdiag t u Ht Hu).
  destruct (power_substochastic M N (S t) eq_refl Hpos Hrow) as [Hp Hr].
  split; [apply Hp; exact Hu|].
  eapply Qle_trans; [|apply (Hr u Hu)].
  apply (sumQ_term_le (fun j => t_at (matrix_power M (S t)) u j) N u); [|exact Hu].
  intros k Hk. apply Hp; assumption.
Qed.

(** ** More on the normalisation *)

Lemma in_rows_concat {A} (x : list (list A)) (r : list A) (e : A) :
  In r x -> In e r -> In e (concat x).
Proof. intros Hr He. apply in_concat. exists r. split; assumption. Qed.

Lemma map_map_ext_in {A B} (f g : A -> B) (x : list (list A)) :
  (forall e, In e (concat x) -> f e = g e) -> map (map f) x = map (map g) x.
Proof.
  intros H. apply map_ext_in. intros r Hr. apply map_ext_in. intros e He.
  apply H. exact (in_rows_concat x r e Hr He).
Qed.

(** X7. A block with elements that are all equal is neither rejected nor
    set to zero: every entry of the normalised block is NaN. *)
Theorem minmax_constant_nan (x : list (list Q)) :
  0 < np_size x -> (np_min x == np_max x)%Q ->
  minmax x = map (map (fun _ => NaN)) x.
Proof.
  intros Hsize Heq. unfold minmax. apply Nat.ltb_lt in Hsize as Hb. rewrite Hb.
  destruct (np_min_spec x Hsize) as [_ Hmin].
  destruct (np_max_spec x Hsize) as [_ Hmax].
  apply map_map_ext_in. intros e He.
  specialize (Hmin e He). specialize (Hmax e He).
  unfold np_div.
  replace (Qeq_bool (np_max x - np_min x) 0) with true
    by (symmetry; apply Qeq_bool_iff; lra).
  replace (Qeq_bool (e - np_min x) 0) with true
    by (symmetry; apply Qeq_bool_iff; lra).
  reflexivity.
Qed.

(** X8. The normalisation of a block whose maximum exceeds its minimum is
    one increasing map applied to every entry of the block, whatever its
    column, and every normalised entry lies between 0 and 1. *)
Theorem minmax_increasing (x : list (list Q)) :
  0 < np_size x -> (np_min x < np_max x)%Q ->
  exists f : Q -> Q,
    minmax x = map (map (fun e => Fin (f e))) x /\
    (forall a b, (a < b)%Q -> (f a < f b)%Q) /\
    (forall e, In e (concat x) -> (0 <= f e)%Q /\ (f e <= 1)%Q).
Proof.
  intros Hsize Hlt.
  set (mn := np_min x) in *. set (mx := np_max x) in *.
  assert (Hd : (0 < mx - mn)%Q) by lra.
  exists (fun e => ((e - mn) / (mx - mn))%Q). split; [|split].
  - unfold minmax. apply Nat.ltb_lt in Hsize. rewrite Hsize.
    apply map_ext. intros r. apply map_ext. intros e. fold mn mx.
    apply np_div_pos. exact Hd.
  - intros a b Hab. unfold Qdiv. apply Qmult_lt_compat_r; [|lra].
    apply Qinv_lt_0_compat. exact Hd.
  - intros e He.
    destruct (np_min_spec x Hsize) as [_ Hmin].
    destruct (np_max_spec x Hsize) as [_ Hmax].
    specialize (Hmin e He). specialize (Hmax e He). fold mn in Hmin. fold mx in Hmax.
    split; [apply Qle_shift_div_l | apply Qle_shift_div_r]; lra.
Qed.

(** ** The Laplacian transform: what the generator decides *)

Lemma sign_of_square (b : bool) : (sign_of b * sign_of b == 1)%Q.
Proof. destruct b; reflexivity. Qed.

(** X9. Two runs of the transform on the same eigenpairs differ only in
    the signs of whole columns: column [j] of one result is column [j] of
    the other times a factor +1 or -1 that does not depend on the row. *)
Theorem laplacian_call_sign_only (k : nat) (name : string) (is_undirected : bool)
  (data : gmap string attr) (w1 w2 : world) (N : nat) (ei : list (nat * nat))
  (vals : list (Q * Q)) (vecs : list (list (Q * Q))) :
  data_num_nodes data = Some N ->
  data_edge_index data = Some ei ->
  (if negb is_undirected then eigs else eigsh)
    (get_laplacian ei N) (k + 1) (if negb is_undirected then SR else SA)
  = Ok (vals, vecs) ->
  length vals = k + 1 ->
  Forall (fun r => length r = k + 1) vecs ->
  exists pe1 pe2 w1' w2',
    AddLaplacianEigenvectorPE_call k (Some name) is_undirected data w1
    = Ok (<[name := ATensor pe1]> data, w1') /\
    AddLaplacianEigenvectorPE_call k (Some name) is_undirected data w2
    = Ok (<[name := ATensor pe2]> data, w2') /\
    forall j, j < k ->
      let c := (sign_of (coin (rng w1 + j)) * sign_of (coin (rng w2 + j)))%Q in
      (c == 1 \/ c == -1)%Q /\
      forall i, i < length vecs ->
        (nth j (nth i pe1 []) 0 == nth j (nth i pe2 []) 0 * c)%Q.
Proof.
  intros HN Hei Hsolve Hvals Hvecs.
  exists (laplacian_pe k (rng w1) vals vecs), (laplacian_pe k (rng w2) vals vecs).
  do 2 eexists.
  split; [apply (laplacian_call_Ok k name is_undirected data w1 N ei vals vecs);
          assumption|].
  split; [apply (laplacian_call_Ok k name is_undirected data w2 N ei vals vecs);
          assumption|].
  intros j Hj c. split.
  - unfold c. destruct (coin (rng w1 + j)), (coin (rng w2 + j)); simpl;
      [left | right | right | left]; reflexivity.
  - intros i Hi.
    rewrite (laplacian_pe_entry k (rng w1) vals vecs i j Hvals Hi Hj).
    rewrite (laplacian_pe_entry k (rng w2) vals vecs i j Hvals Hi Hj).
    unfold c.
    set (re := fst _). set (s1 := sign_of (coin (rng w1 + j))).
    set (s2 := sign_of (coin (rng w2 + j))).
    assert (H2 : (s2 * s2 == 1)%Q) by apply sign_of_square.
    transitivity (re * s1 * (s2 * s2))%Q; [rewrite H2; ring | ring].
Qed.

(** ** The pipeline: failures, files and the unused block *)

Lemma make_data_reads (ei : list (nat * nat)) (device : string) :
  data_edge_index (make_data ei device) = Some ei /\
  data_edge_weight (make_data ei device) = None /\
  data_num_nodes (make_data ei device) = Some (maybe_num_nodes ei None).
Proof.
  assert (H1 : make_data ei device !! "edge_index"%string = Some (AIndex ei)).
  { unfold make_data. rewrite lookup_insert_ne by discriminate.
    apply lookup_insert_eq. }
  assert (H2 : make_data ei device !! "edge_weight"%string = None).
  { unfold make_data. rewrite !lookup_insert_ne by discriminate. apply lookup_empty. }
  assert (H3 : make_data ei device !! "x"%string = None).
  { unfold make_data. rewrite !lookup_insert_ne by discriminate. apply lookup_empty. }
  unfold data_edge_index, data_edge_weight, data_num_nodes, data_edge_index.
  rewrite H1, H2, H3. repeat split.
Qed.

Lemma laplacian_call_world (k : nat) (name : string) (u : bool)
  (data d' : gmap string attr) (w w' : world) :
  AddLaplacianEigenvectorPE_call k (Some name) u data w = Ok (d', w') ->
  fs w' = fs w /\ rng w' = rng w + k /\
  calls w' = calls w ++ [EvEigSolver u (k + 1) (if negb u then SR else SA);
                         EvRandint k].
Proof.
  intros Hcall. unfold AddLaplacianEigenvectorPE_call in Hcall.
  destruct (data_num_nodes data) as [N|]; [|discriminate].
  destruct (data_edge_index data) as [ei|]; [|discriminate].
  cbn [of_option rbind] in Hcall.
  destruct ((if negb u then eigs else eigsh) _ _ _) as [[vals vecs]|]; [|discriminate].
  cbn [rbind] in Hcall.
  destruct (select_columns vecs (argsort vals)) as [cols|]; [|discriminate].
  cbn [rbind] in Hcall. unfold randint in Hcall.
  destruct (imul_rows _ _) as [pe|]; [|discriminate].
  cbn [rbind add_node_attr] in Hcall. injection Hcall as _ <-.
  unfold log. cbn [fs rng calls]. rewrite <- app_assoc. repeat split.
Qed.

Lemma spectral_block_world (le_size : Z) (A : list (list nat))
  (data d' : gmap string attr) (w w' : world) (pe : option (list (list Q))) :
  spectral_block le_size A data w = Ok (pe, d', w') ->
  fs w' = fs w /\ same_graph data d' /\ exists evs, calls w' = calls w ++ evs.
Proof.
  unfold spectral_block. destruct (0 <? le_size)%Z.
  - intros H. inv_bind H. destruct x as [d1 w1]. inv_bind H. injection H as _ <- <-.
    destruct (laplacian_call_world _ _ _ _ _ _ _ Hx) as [Hfs [_ Hcalls]].
    destruct (laplacian_call_same_graph _ _ _ _ data data d1 w1 (same_graph_refl data) Hx)
      as [pe1 [-> _]].
    split; [exact Hfs|]. split; [apply same_graph_insert; discriminate|].
    eexists. exact Hcalls.
  - destruct (le_size =? 0)%Z; intros H; injection H as _ <- <-;
      (split; [reflexivity|]; split; [apply same_graph_refl|];
       exists []; rewrite app_nil_r; reflexivity).
Qed.

(** The random-walk transform cannot fail on a graph whose node count is
    inferred from its edge index. *)
Lemma forward_total (L : nat) (data : gmap string attr) (ei : list (nat * nat)) :
  data_edge_index data = Some ei ->
  data_num_nodes data = Some (maybe_num_nodes ei None) ->
  exists pe,
    AddRandomWalkPE.forward L AddRandomWalkPE.default_attr_name data
    = Ok (<["random_walk_pe"%string := ATensor pe]> data).
Proof.
  intros Hei HN.
  assert (Hrange : Forall (fun e : nat * nat => fst e < maybe_num_nodes ei None) ei).
  { apply List.Forall_forall. intros e He. apply (maybe_num_nodes_bound ei e He). }
  destruct (random_walk_pe_lists L data ei _ Hei HN Hrange)
    as [value [pl [_ [_ [_ [_ [Hlen [Hall [Hrw _]]]]]]]]].
  assert (Hne : pl <> []) by (destruct pl; [discriminate | congruence]).
  destruct (stack_last_spec pl _ Hne Hall) as [pe [Hs _]].
  exists pe. unfold AddRandomWalkPE.forward. rewrite Hrw, Hs. reflexivity.
Qed.

Lemma diffusion_block_total (rw_size : Z) (A : list (list nat))
  (data : gmap string attr) (w : world) (ei : list (nat * nat)) :
  data_edge_index data = Some ei ->
  data_num_nodes data = Some (maybe_num_nodes ei None) ->
  exists pe_rw w',
    diffusion_block rw_size A data w = Ok (pe_rw, w') /\
    fs w' = fs w /\ rng w' = rng w /\ exists evs, calls w' = calls w ++ evs.
Proof.
  intros Hei HN. unfold diffusion_block. destruct (0 <? rw_size)%Z.
  - destruct (forward_total (Z.to_nat rw_size) data ei Hei HN) as [pe Hf].
    rewrite Hf. cbn [rbind]. unfold get_tensor_attr.
    rewrite lookup_insert_eq. cbn [rbind].
    do 2 eexists. split; [reflexivity|]. unfold log. cbn [fs rng calls].
    repeat split. eexists. reflexivity.
  - destruct (rw_size =? 0)%Z; do 2 eexists; (split; [reflexivity|]);
      repeat split; exists []; rewrite app_nil_r; reflexivity.
Qed.

Lemma diffusion_block_world (rw_size : Z) (A : list (list nat))
  (data : gmap string attr) (w w' : world) (pe : option (list (list Q))) :
  diffusion_block rw_size A data w = Ok (pe, w') ->
  fs w' = fs w /\ rng w' = rng w /\ exists evs, calls w' = calls w ++ evs.
Proof.
  unfold diffusion_block. destruct (0 <? rw_size)%Z.
  - intros H. inv_bind H. inv_bind H. injection H as _ <-.
    unfold log. cbn [fs rng calls]. repeat split. eexists. reflexivity.
  - destruct (rw_size =? 0)%Z; intros H; injection H as _ <-;
      repeat split; exists []; rewrite app_nil_r; reflexivity.
Qed.

(** The learned block reads the files and the generator, not the history. *)
Lemma learned_block_world (n2v_size : Z) (A : list (list nat))
  (data : gmap string attr) (wa wa' wb : world) (pe : option (list (list Q))) :
  learned_block n2v_size A data wa = Ok (pe, wa') ->
  fs wb = fs wa -> rng wb = rng wa ->
  fs wa' = fs wa /\ (exists evs, calls wa' = calls wa ++ evs) /\
  exists wb',
    learned_block n2v_size A data wb = Ok (pe, wb') /\
    fs wb' = fs wa' /\ rng wb' = rng wa'.
Proof.
  intros H Hfs Hrng. unfold learned_block in *. destruct (0 <? n2v_size)%Z.
  - unfold node2vec in *. rewrite Hrng, Hfs.
    destruct (data_edge_index data) as [ei|]; [|discriminate].
    cbn [of_option rbind] in *.
    destruct (Node2Vec_init ei (Z.to_nat n2v_size) (rng wa)) as [m0 g0].
    destruct (train_loop 21 ei m0 g0) as [m1 g1]. cbn [rbind] in *.
    destruct (data_num_nodes data) as [N|]; [|discriminate].
    cbn [of_option rbind] in *.
    destruct (index_select m1 (seq 0 N)) as [sel|]; [|discriminate].
    cbn [rbind] in *. injection H as <- <-. unfold log. cbn [fs rng calls].
    split; [reflexivity|]. split; [eexists; reflexivity|].
    eexists. split; [reflexivity|]. split; reflexivity.
  - destruct (n2v_size =? 0)%Z; injection H as <- <-;
      (split; [reflexivity|]; split; [exists []; rewrite app_nil_r; reflexivity|];
       eexists; split; [reflexivity|]; split; assumption).
Qed.

Lemma compute_pos_enc_world (args : Args) (le_size rw_size n2v_size : Z)
  (norm : bool) (device : string) (w w' : world) (pe : list (list npfloat)) :
  compute_pos_enc args le_size rw_size n2v_size norm device w = Ok (pe, w') ->
  fs w' = <[pe_path_from args := TFloat pe]> (fs w) /\
  (forall p, p <> pe_path_from args -> fs w' !! p = fs w !! p) /\
  exists evs, calls w' = calls w ++ evs ++ [EvToParquet (pe_path_from args)].
Proof.
  intros H. unfold compute_pos_enc in H.
  inv_bind H. destruct x as [A w1].
  inv_bind H. destruct x as [[pe_le data1] w2].
  inv_bind H. destruct x as [pe_rw w3].
  inv_bind H. destruct x as [pe_n2v w4].
  inv_bind H. injection H as Hpe <-. subst x.
  assert (H1 : fs w1 = fs w /\ calls w1 = calls w ++ [EvReadParquet (adj_path args)]).
  { unfold read_adjacency in Hx. destruct (fs w !! adj_path args) as [[t|t]|];
      try discriminate. injection Hx as _ <-. split; reflexivity. }
  destruct H1 as [Hf1 Hc1].
  destruct (spectral_block_world _ _ _ _ _ _ _ Hx0) as [Hf2 [_ [e2 Hc2]]].
  destruct (diffusion_block_world _ _ _ _ _ _ Hx1) as [Hf3 [_ [e3 Hc3]]].
  destruct (learned_block_world _ _ _ _ _ w3 _ Hx2 eq_refl eq_refl)
    as [Hf4 [[e4 Hc4] _]].
  assert (Hfs : fs (to_parquet pe (pe_path_from args) w4)
                = <[pe_path_from args := TFloat pe]> (fs w)).
  { unfold to_parquet, log. cbn [fs]. rewrite Hf4, Hf3, Hf2, Hf1. reflexivity. }
  split; [exact Hfs|]. split.
  - intros p Hp. rewrite Hfs. apply lookup_insert_ne. congruence.
  - exists ([EvReadParquet (adj_path args)] ++ e2 ++ e3 ++ e4).
    unfold to_parquet, log. cbn [calls]. rewrite Hc4, Hc3, Hc2, Hc1.
    rewrite <- !app_assoc. reflexivity.
Qed.

(** X10. What a run leaves behind: the file system after a run that
    returns is the one before it with the returned matrix at the derived
    path, every other path is as it was, and the history of library calls
    has only grown. *)
Theorem compute_pos_enc_frame (args : Args) (le_size rw_size n2v_size : Z)
  (norm : bool) (device : string) (w w' : world) (pe : list (list npfloat)) :
  compute_pos_enc args le_size rw_size n2v_size norm device w = Ok (pe, w') ->
  fs w' = <[pe_path_from args := TFloat pe]> (fs w) /\
  (forall p, p <> pe_path_from args -> fs w' !! p = fs w !! p) /\
  exists evs, calls w' = calls w ++ evs ++ [EvToParquet (pe_path_from args)].
Proof. apply compute_pos_enc_world. Qed.

(** X11. The diffusion block has no effect on the result: a run that
    returns with one [rw_size] returns the same matrix with any other,
    negative ones included, and leaves the same files and the same
    generator state. *)
Theorem compute_pos_enc_rw_size_irrelevant (args : Args)
  (le_size rw1 rw2 n2v_size : Z) (norm : bool) (device : string)
  (w w1 : world) (pe : list (list npfloat)) :
  compute_pos_enc args le_size rw1 n2v_size norm device w = Ok (pe, w1) ->
  exists w2,
    compute_pos_enc args le_size rw2 n2v_size norm device w = Ok (pe, w2) /\
    fs w2 = fs w1 /\ rng w2 = rng w1.
Proof.
  intros H. unfold compute_pos_enc in *.
  inv_bind H. destruct x as [A wa]. rewrite Hx. cbn [rbind].
  inv_bind H. destruct x as [[pe_le data1] wb]. rewrite Hx0. cbn [rbind].
  inv_bind H. destruct x as [pe_rw wc].
  inv_bind H. destruct x as [pe_n2v wd].
  inv_bind H. injection H as <- <-.
  destruct (spectral_block_world _ _ _ _ _ _ _ Hx0) as [_ [Hsame _]].
  destruct (same_graph_reads _ _ Hsame) as [Hei [_ [Hn _]]].
  destruct (make_data_reads (edge_index_of A) device) as [Mei [_ Mn]].
  rewrite Mei in Hei. rewrite Mn in Hn. symmetry in Hei, Hn.
  destruct (diffusion_block_total rw2 A data1 wb (edge_index_of A) Hei Hn)
    as [pe_rw' [wc' [Hd' [Hfs' [Hrng' _]]]]].
  destruct (diffusion_block_world _ _ _ _ _ _ Hx1) as [Hfs [Hrng _]].
  destruct (learned_block_world _ _ _ _ _ wc' _ Hx2) as [_ [_ [wd' [Hl' [Hf Hr]]]]];
    [congruence | congruence |].
  rewrite Hd'. cbn [rbind]. rewrite Hl'. cbn [rbind]. rewrite Hx3. cbn [rbind].
  eexists. split; [reflexivity|].
  unfold to_parquet, log. cbn [fs rng]. rewrite Hf, Hr. split; reflexivity.
Qed.

(** X12. A negative [le_size] or [n2v_size] leaves the block's name
    unbound: the run returns no matrix. *)
Theorem compute_pos_enc_negative_size (args : Args) (le_size rw_size n2v_size : Z)
  (norm : bool) (device : string) (w : world) :
  (le_size < 0 \/ n2v_size < 0)%Z ->
  forall pe w',
    compute_pos_enc args le_size rw_size n2v_size norm device w <> Ok (pe, w').
Proof.
  intros Hneg pe w' H. unfold compute_pos_enc in H.
  inv_bind H. destruct x as [A wa].
  inv_bind H. destruct x as [[pe_le data1] wb].
  inv_bind H. destruct x as [pe_rw wc].
  inv_bind H. destruct x as [pe_n2v wd].
  inv_bind H. unfold assemble in Hx3.
  destruct Hneg as [Hneg | Hneg].
  - unfold spectral_block in Hx0.
    replace (0 <? le_size)%Z with false in Hx0 by (symmetry; apply Z.ltb_ge; lia).
    replace (le_size =? 0)%Z with false in Hx0 by (symmetry; apply Z.eqb_neq; lia).
    injection Hx0 as <- _ _. discriminate.
  - unfold learned_block in Hx2.
    replace (0 <? n2v_size)%Z with false in Hx2 by (symmetry; apply Z.ltb_ge; lia).
    replace (n2v_size =? 0)%Z with false in Hx2 by (symmetry; apply Z.eqb_neq; lia).
    injection Hx2 as <- _. destruct pe_le; discriminate.
Qed.

(** X13. Failures surface: without a table at [adj_path] the run raises
    [FileNotFoundError], and when the eigen-solver raises, the run raises
    the solver's exception; in neither case is a matrix returned. *)
Theorem compute_pos_enc_failures (args : Args) (le_size rw_size n2v_size : Z)
  (norm : bool) (device : string) (w : world) :
  (fs w !! adj_path args = None ->
   compute_pos_enc args le_size rw_size n2v_size norm device w
   = Raise FileNotFoundError) /\
  (forall t e,
     fs w !! adj_path args = Some (TInt t) ->
     (0 < le_size)%Z ->
     eigs (get_laplacian (edge_index_of (transpose 0 t))
             (maybe_num_nodes (edge_index_of (transpose 0 t)) None))
       (Z.to_nat le_size + 1) SR = Raise e ->
     compute_pos_enc args le_size rw_size n2v_size norm device w = Raise e).
Proof.
  split.
  - intros Hnone. unfold compute_pos_enc, read_adjacency. rewrite Hnone. reflexivity.
  - intros t e Ht Hpos Hsolve. unfold compute_pos_enc, read_adjacency. rewrite Ht.
    cbn [rbind]. unfold spectral_block. apply Z.ltb_lt in Hpos. rewrite Hpos.
    unfold AddLaplacianEigenvectorPE_call.
    destruct (make_data_reads (edge_index_of (transpose 0 t)) device) as [Hei [_ Hn]].
    rewrite Hei, Hn. cbn [of_option rbind negb]. rewrite Hsolve. reflexivity.
Qed.

(** ** Paths *)

Lemma split_nonempty (c : ascii) (s : string) : split c s <> [].
Proof.
  destruct s as [|a s]; simpl; [discriminate|].
  destruct (Ascii.eqb a c); [discriminate|].
  destruct (split c s); discriminate.
Qed.

Lemma split_no_sep (c : ascii) (s : string) :
  ~ In c (list_ascii_of_string s) -> split c s = [s].
Proof.
  induction s as [|a s IH]; simpl; intros H; [reflexivity|].
  destruct (Ascii.eqb a c) eqn:E.
  - apply Ascii.eqb_eq in E. exfalso. apply H. left. exact E.
  - rewrite IH by (intros Hin; apply H; right; exact Hin). reflexivity.
Qed.

Lemma split_app (c : ascii) (s1 s2 : string) :
  split c (s1 ++ String c s2) = split c s1 ++ split c s2.
Proof.
  induction s1 as [|a s1 IH]; simpl.
  - rewrite Ascii.eqb_refl. reflexivity.
  - destruct (Ascii.eqb a c); [rewrite IH; reflexivity|].
    rewrite IH. pose proof (split_nonempty c s1) as Hne.
    destruct (split c s1) as [|h t]; [congruence | reflexivity].
Qed.

Lemma split_tokens (c : ascii) (s : string) :
  Forall (fun t => ~ In c (list_ascii_of_string t)) (split c s).
Proof.
  induction s as [|a s IH]; simpl.
  - constructor; [intros [] | constructor].
  - destruct (Ascii.eqb a c) eqn:E.
    + constructor; [intros [] | exact IH].
    + pose proof (split_nonempty c s) as Hne.
      destruct (split c s) as [|h t]; [congruence|].
      inversion IH as [|? ? Hh Ht]; subst. constructor; [|exact Ht].
      simpl. intros [Ha | Hin]; [|exact (Hh Hin)].
      subst. rewrite Ascii.eqb_refl in E. discriminate.
Qed.

Lemma join_cons (sep h : string) (t : list string) :
  t <> [] -> join sep (h :: t) = (h ++ sep ++ join sep t)%string.
Proof. destruct t; [congruence | reflexivity]. Qed.

Lemma join_split (c : ascii) (s : string) :
  join (String c EmptyString) (split c s) = s.
Proof.
  induction s as [|a s IH]; simpl; [reflexivity|].
  pose proof (split_nonempty c s) as Hne.
  destruct (Ascii.eqb a c) eqn:E.
  - apply Ascii.eqb_eq in E. subst a.
    rewrite join_cons by exact Hne. rewrite IH. reflexivity.
  - destruct (split c s) as [|h t] eqn:Hs; [congruence|].
    destruct t as [|h' t].
    + simpl in IH. simpl. rewrite IH. reflexivity.
    + rewrite join_cons by discriminate. rewrite join_cons in IH by discriminate.
      rewrite <- IH. reflexivity.
Qed.

Lemma string_app_assoc (s1 s2 s3 : string) :
  ((s1 ++ s2) ++ s3 = s1 ++ (s2 ++ s3))%string.
Proof.
  induction s1 as [|a s1 IH]; [reflexivity|].
  change (String a ((s1 ++ s2) ++ s3) = String a (s1 ++ (s2 ++ s3)))%string.
  f_equal. exact IH.
Qed.

Lemma string_app_inv_head (s t1 t2 : string) :
  (s ++ t1 = s ++ t2)%string -> t1 = t2.
Proof.
  induction s as [|a s IH]; intros H; [exact H|].
  change (String a (s ++ t1) = String a (s ++ t2))%string in H.
  injection H as H. exact (IH H).
Qed.

Lemma string_length_app (s1 s2 : string) :
  String.length (s1 ++ s2) = String.length s1 + String.length s2.
Proof.
  induction s1 as [|a s1 IH]; [reflexivity|].
  change (S (String.length (s1 ++ s2)) = S (String.length s1 + String.length s2)).
  f_equal. exact IH.
Qed.

(** The directory part and the file name of a path with a separator. *)
Lemma split_path (dir file : string) :
  ~ In "/"%char (list_ascii_of_string file) ->
  removelast (split "/" (dir ++ String "/" file)) = split "/" dir /\
  List.last (split "/" (dir ++ String "/" file)) EmptyString = file.
Proof.
  intros H. rewrite split_app, (split_no_sep _ file H).
  split; [apply removelast_last | apply last_last].
Qed.

(** X14. The derived path in closed form. For a source [dir/tok_rest] it is
    [dir/pe_dim<pe_size>_rest]: the directory is kept, the part of the file
    name up to its first underscore is replaced; for a file name without
    an underscore it is [dir/pe_dim<pe_size>_], the whole name being
    dropped. [args.pe_path] plays no part. *)
Theorem pe_path_from_closed_form (dir tok rest path : string) (n : Z) :
  ~ In "/"%char (list_ascii_of_string tok) ->
  ~ In "/"%char (list_ascii_of_string rest) ->
  ~ In "_"%char (list_ascii_of_string tok) ->
  pe_path_from (mkArgs (dir ++ "/" ++ tok ++ "_" ++ rest) path n)
  = (dir ++ "/pe_dim" ++ str_of_int n ++ "_" ++ rest)%string /\
  pe_path_from (mkArgs (dir ++ "/" ++ tok) path n)
  = (dir ++ "/pe_dim" ++ str_of_int n ++ "_")%string.
Proof.
  intros Htok Hrest Hus.
  assert (Hfile : ~ In "/"%char (list_ascii_of_string (tok ++ String "_" rest))).
  { clear Hus. induction tok as [|a tok IH]; simpl in *.
    - intros [H | H]; [discriminate | exact (Hrest H)].
    - intros [H | H]; [apply Htok; left; exact H|].
      apply IH; [intros H'; apply Htok; right; exact H' | exact H]. }
  unfold pe_path_from. cbn [adj_path pe_size]. split.
  - change (dir ++ "/" ++ tok ++ "_" ++ rest)%string
      with (dir ++ String "/" (tok ++ String "_" rest))%string.
    destruct (split_path dir (tok ++ String "_" rest) Hfile) as [-> ->].
    rewrite (join_split "/" dir).
    rewrite split_app, (split_no_sep _ tok Hus). cbn [app tail].
    rewrite (join_split "_" rest).
    rewrite !string_app_assoc. reflexivity.
  - change (dir ++ "/" ++ tok)%string with (dir ++ String "/" tok)%string.
    destruct (split_path dir tok Htok) as [-> ->].
    rewrite (join_split "/" dir).
    rewrite (split_no_sep _ tok Hus). cbn [tail join].
    rewrite !string_app_assoc. reflexivity.
Qed.

Lemma join_app_last (sep : string) (l : list string) (x : string) :
  l <> [] -> join sep (l ++ [x]) = (join sep l ++ sep ++ x)%string.
Proof.
  induction l as [|h l IH]; intros Hne; [congruence|].
  destruct l as [|h' l].
  - reflexivity.
  - change ((h :: h' :: l) ++ [x]) with (h :: ((h' :: l) ++ [x])).
    rewrite join_cons by (cbn; congruence). rewrite IH by congruence.
    rewrite (join_cons sep h (h' :: l)) by discriminate.
    rewrite !string_app_assoc. reflexivity.
Qed.

(** A file name that the derivation maps to itself does not exist. *)
Lemma derived_name_differs (F : string) (n : Z) :
  ("pe_" ++ "dim" ++ str_of_int n ++ "_"
   ++ join "_" (tail (split "_" F)))%string <> F.
Proof.
  intros H.
  pose proof (join_split "_" F) as HF.
  pose proof (split_tokens "_" F) as Htok.
  destruct (split "_" F) as [|h tl] eqn:Hs; [exact (split_nonempty _ _ Hs)|].
  pose proof (List.Forall_inv Htok) as Hh. cbv beta in Hh. cbn [tail] in H.
  destruct tl as [|h' tl].
  - (* no underscore in the name, one in the derived name *)
    simpl in HF. subst h. apply Hh. rewrite <- H. simpl. auto.
  - rewrite join_cons in HF by discriminate.
    set (J := join "_" (h' :: tl)) in *.
    rewrite <- HF in H. clear HF Hs.
    destruct h as [|a [|b [|c h]]]; cbn [append] in H.
    + discriminate H.
    + discriminate H.
    + injection H as _ _ H.
      apply (f_equal String.length) in H.
      rewrite !string_length_app in H. simpl in H. lia.
    + injection H as _ _ Hc _. apply Hh. simpl. auto.
Qed.

(** X15. The derived path is never the adjacency path: a run that returns
    leaves its source table in place. *)
Theorem compute_pos_enc_keeps_source (args : Args) :
  pe_path_from args <> adj_path args /\
  forall le_size rw_size n2v_size norm device w pe w',
    compute_pos_enc args le_size rw_size n2v_size norm device w = Ok (pe, w') ->
    fs w' !! adj_path args = fs w !! adj_path args.
Proof.
  assert (Hne : pe_path_from args <> adj_path args).
  { unfold pe_path_from. intros H.
    pose proof (join_split "/" (adj_path args)) as Hadj.
    pose proof (split_tokens "/" (adj_path args)) as Htok.
    pose proof (split_nonempty "/" (adj_path args)) as Hparts.
    destruct (app_removelast_last EmptyString Hparts) as [].
    set (init := removelast (split "/" (adj_path args))) in *.
    set (F := List.last (split "/" (adj_path args)) EmptyString) in *.
    assert (HF : ~ In "/"%char (list_ascii_of_string F)).
    { rewrite List.Forall_forall in Htok. apply Htok. unfold F.
      clear - Hparts. induction (split "/" (adj_path args)) as [|x l IH];
        [congruence|]. destruct l as [|y l]; [left; reflexivity|].
      right. apply IH. discriminate. }
    rewrite (app_removelast_last EmptyString Hparts) in Hadj. fold init F in Hadj.
    rewrite !string_app_assoc in H.
    destruct init as [|i0 init'].
    - simpl in Hadj. rewrite <- Hadj in H. apply HF. rewrite <- H. simpl. auto.
    - rewrite join_app_last in Hadj by discriminate.
      rewrite <- Hadj in H. apply string_app_inv_head in H.
      change ("/" ++ F)%string with (String "/" F) in H.
      injection H as H. exact (derived_name_differs F (pe_size args) H). }
  split; [exact Hne|].
  intros le_size rw_size n2v_size norm device w pe w' H.
  destruct (compute_pos_enc_world _ _ _ _ _ _ _ _ _ H) as [_ [Hother _]].
  apply Hother. congruence.
Qed.

(** ** [Transformer]: level boundaries and attention mask *)







Lemma nth_map_default {A B} (f : A -> B) (l : list A) (i : nat) (d : B) (x : A) :
  l !! i = Some x -> nth i (map f l) d = f x.
Proof.
  revert i. induction l as [|a l IH]; intros [|i] H; simpl in *; try discriminate.
  - injection H as <-. reflexivity.
  - apply IH. exact H.
Qed.

(** X17. The attention mask is square; entry [(i, j)] is set exactly when
    the features of node [i] and those of node [j] each sum to more than
    [eps] in absolute value, so the mask is symmetric. A node whose features
    sum to zero, a padding row of zeros but also a node whose features
    cancel, has its whole row and column cleared. *)
Theorem get_attn_mask_spec (x : list (list Q)) :
  let mask := Transformer.get_attn_mask x in
  let active := fun r => negb (Qle_bool (Qabs (sum_list_Q r)) Transformer.eps) in
  length mask = length x /\
  Forall (fun row => length row = length x) mask /\
  (forall i j ri rj, x !! i = Some ri -> x !! j = Some rj ->
     nth j (nth i mask []) false = active ri && active rj /\
     nth j (nth i mask []) false = nth i (nth j mask []) false) /\
  (forall i ri, x !! i = Some ri -> (sum_list_Q ri == 0)%Q ->
     forall j, nth j (nth i mask []) false = false /\
               nth i (nth j mask []) false = false).
Proof.
  intros mask active.
  assert (Hentry : forall i j ri rj, x !! i = Some ri -> x !! j = Some rj ->
            nth j (nth i mask []) false = active ri && active rj).
  { intros i j ri rj Hi Hj. unfold mask, Transformer.get_attn_mask.
    fold active. rewrite map_map.
    rewrite (nth_map_default _ x i [] ri Hi).
    rewrite map_map. rewrite (nth_map_default _ x j false rj Hj). reflexivity. }
  assert (Hout : forall i j, x !! i = None \/ x !! j = None ->
            nth j (nth i mask []) false = false).
  { intros i j H. unfold mask, Transformer.get_attn_mask. fold active.
    rewrite map_map.
    destruct (x !! i) as [ri|] eqn:Hi.
    - rewrite (nth_map_default _ x i [] ri Hi). destruct H as [H | H]; [discriminate|].
      apply nth_overflow. rewrite !length_map. apply lookup_ge_None. exact H.
    - rewrite (nth_overflow (map _ x))
        by (rewrite length_map; apply lookup_ge_None; exact Hi).
      destruct j; reflexivity. }
  split; [unfold mask, Transformer.get_attn_mask; rewrite !length_map; reflexivity|].
  split.
  { unfold mask, Transformer.get_attn_mask. apply List.Forall_forall.
    intros row Hrow. apply in_map_iff in Hrow as [a [<- _]].
    rewrite !length_map. reflexivity. }
  split.
  - intros i j ri rj Hi Hj. split; [apply Hentry; assumption|].
    rewrite (Hentry i j ri rj Hi Hj), (Hentry j i rj ri Hj Hi). apply andb_comm.
  - intros i ri Hi Hzero j.
    assert (Ha : active ri = false).
    { unfold active. apply negb_false_iff. apply Qle_bool_iff.
      rewrite Hzero. simpl. unfold Transformer.eps. discriminate. }
    destruct (x !! j) as [rj|] eqn:Hj.
    + rewrite (Hentry i j ri rj Hi Hj), (Hentry j i rj ri Hj Hi), Ha.
      split; [reflexivity | apply andb_false_r].
    + split; apply Hout; auto.
Qed.

(** ** Empty blocks and the rows of the adjacency table *)

(** X18. With an edge-index source, no spectral dimension and a learned
    block, the empty spectral block has the two rows of the table and the
    learned block one row per node: unless the graph has exactly two
    nodes, the run returns no matrix. *)
Theorem compute_pos_enc_edge_index_empty_block (args : Args)
  (rw_size n2v_size : Z) (norm : bool) (device : string) (w : world)
  (t : list (list nat)) :
  fs w !! adj_path args = Some (TInt t) ->
  length (transpose 0 t) = 2 ->
  (0 < n2v_size)%Z ->
  maybe_num_nodes (edge_index_of (transpose 0 t)) None <> 2 ->
  forall pe w',
    compute_pos_enc args 0 rw_size n2v_size norm device w <> Ok (pe, w').
Proof.
  intros Ht HA Hpos HN pe w' H. unfold compute_pos_enc, read_adjacency in H.
  rewrite Ht in H. cbn [rbind] in H. rewrite spectral_block_zero in H.
  cbn [rbind] in H.
  inv_bind H. destruct x as [pe_rw wc].
  inv_bind H. destruct x as [pe_n2v wd].
  inv_bind H. clear H.
  unfold learned_block in Hx0. apply Z.ltb_lt in Hpos. rewrite Hpos in Hx0.
  inv_bind Hx0. destruct x0 as [model w1].
  destruct (make_data_reads (edge_index_of (transpose 0 t)) device) as [_ [_ Hn]].
  rewrite Hn in Hx0. cbn [of_option rbind] in Hx0.
  inv_bind Hx0. injection Hx0 as <- _.
  apply index_select_Ok_length in Hx3. rewrite length_seq in Hx3.
  unfold assemble in Hx1. cbn [of_option rbind map concatenate] in Hx1.
  apply cat_last_Ok in Hx1 as [Hlen _].
  destruct (minmax_rows (repeat [] (length (transpose 0 t)))) as [g1 E1].
  destruct (minmax_rows x0) as [g2 E2].
  rewrite E1, E2, !length_map, repeat_length, HA, Hx3 in Hlen.
  congruence.
Qed.

End Pipeline.

(** * The pipeline on concrete graphs *)

Abbreviation run_call :=
  (AddLaplacianEigenvectorPE_call Instance.Laplacian Instance.get_laplacian
     Instance.eigs Instance.eigsh Instance.coin).
Abbreviation run_spectral_block :=
  (spectral_block Instance.Laplacian Instance.get_laplacian
     Instance.eigs Instance.eigsh Instance.coin).
Abbreviation run_compute_pos_enc :=
  (compute_pos_enc Instance.Laplacian Instance.get_laplacian Instance.eigs
     Instance.eigsh Instance.coin Instance.Node2Vec_init Instance.train_epoch).
Abbreviation run_pos_enc :=
  (pos_enc Instance.Laplacian Instance.get_laplacian Instance.eigs
     Instance.eigsh Instance.coin Instance.Node2Vec_init Instance.train_epoch).

Lemma instance_eigs_shape (L : Instance.Laplacian) (k : nat) (wh : which)
  (vals : list (Q * Q)) (vecs : list (list (Q * Q))) :
  Instance.eigs L k wh = Ok (vals, vecs) ->
  length vals = k /\ Forall (fun r => length r = k) vecs.
Proof.
  unfold Instance.eigs. intros H. injection H as <- <-.
  split; [rewrite length_map; apply length_seq|].
  apply List.Forall_forall. intros r Hr. apply in_map_iff in Hr as [i [<- _]].
  rewrite length_map. apply length_seq.
Qed.

Lemma instance_init_shape (ei : list (nat * nat)) (dim g : nat) :
  Forall (fun r => length r = dim) (fst (Instance.Node2Vec_init ei dim g)).
Proof.
  unfold Instance.Node2Vec_init. cbn [fst].
  apply List.Forall_forall. intros r Hr. apply in_map_iff in Hr as [i [<- _]].
  rewrite length_map. apply length_seq.
Qed.

Lemma instance_train_shape (ei : list (nat * nat)) (m : list (list Q))
  (g dim : nat) :
  Forall (fun r => length r = dim) m ->
  Forall (fun r => length r = dim) (fst (Instance.train_epoch ei m g)).
Proof.
  unfold Instance.train_epoch. cbn [fst]. intros H.
  apply List.Forall_forall. intros r Hr. apply in_map_iff in Hr as [r0 [<- Hr0]].
  rewrite length_map. rewrite List.Forall_forall in H. exact (H r0 Hr0).
Qed.

(** ** C5: transition values *)

Lemma transition_value_normalised_witness :
  let ei := [(0, 1); (1, 0); (1, 1)] in
  data_edge_index (Instance.graph ei) = Some ei /\
  Forall (fun e : nat * nat => fst e < 2) ei /\
  exists value,
    AddRandomWalkPE.transition_value (Instance.graph ei) (map fst ei) 2 = Ok value /\
    (out_weight value (map fst ei) 1%nat == 1)%Q.
Proof.
  intros ei.
  assert (H1 : data_edge_index (Instance.graph ei) = Some ei) by reflexivity.
  assert (H2 : Forall (fun e : nat * nat => fst e < 2) ei)
    by (repeat constructor).
  split; [exact H1|]. split; [exact H2|].
  destruct (transition_value_normalised (Instance.graph ei) ei 2 H1 H2)
    as [value [Hv [_ [_ Hunit]]]].
  exists value. split; [exact Hv|].
  apply (Hunit eq_refl 1). simpl. auto.
Defined.

(** A weighted edge: its transition value is the reciprocal of the weight
    leaving its source, not its own share of that weight; and a node whose
    leaving weight lies strictly between 0 and 1 is clamped as well. *)
Lemma transition_value_weighted_counterexample :
  (exists v,
     AddRandomWalkPE.transition_value
       (<["edge_weight"%string := AVec [2%Q]]> (Instance.graph [(0, 1)])) [0] 2
     = Ok [v] /\
     ~ (v == 2 / out_weight [2%Q] [0%nat] 0%nat)%Q) /\
  (exists value,
     AddRandomWalkPE.transition_value
       (<["edge_weight"%string := AVec [1 # 4; 1 # 4]%Q]>
          (Instance.graph [(0, 1); (0, 2)])) [0; 0] 3
     = Ok value /\
     (0 < out_weight [1 # 4; 1 # 4] [0%nat; 0%nat] 0%nat)%Q /\
     ~ (out_weight value [0%nat; 0%nat] 0%nat == 1)%Q).
Proof.
  split.
  - eexists. split; [vm_compute; reflexivity|]. vm_compute. discriminate.
  - eexists. split; [vm_compute; reflexivity|]. split; [reflexivity|].
    vm_compute. discriminate.
Qed.

(** ** C6: return probabilities *)

Lemma random_walk_pe_return_probabilities_witness :
  let ei := [(0, 1); (1, 0); (1, 1); (2, 0)] in
  1 <= 3 /\
  data_edge_index (Instance.graph ei) = Some ei /\
  data_num_nodes (Instance.graph ei) = Some 3 /\
  Forall (fun e : nat * nat => fst e < 3 /\ snd e < 3) ei /\
  exists pe,
    AddRandomWalkPE.random_walk_pe 3 (Instance.graph ei) = Ok pe /\
    length pe = 3 /\
    forall t, 1 <= t <= 3 -> (nth (t - 1) (nth 2 pe []) 0 == 0)%Q.
Proof.
  intros ei.
  assert (H0 : 1 <= 3) by lia.
  assert (H1 : data_edge_index (Instance.graph ei) = Some ei) by reflexivity.
  assert (H2 : data_num_nodes (Instance.graph ei) = Some 3) by reflexivity.
  assert (H3 : Forall (fun e : nat * nat => fst e < 3 /\ snd e < 3) ei)
    by (repeat constructor).
  repeat (split; [assumption|]).
  destruct (random_walk_pe_return_probabilities 3 (Instance.graph ei) ei 3
              H0 H1 H2 H3) as [pe [value [Hpe [_ [Hlen [_ [_ [_ Hzero]]]]]]]].
  exists pe. split; [exact Hpe|]. split; [exact Hlen|].
  apply (Hzero 2); [lia|].
  intros e [<- | [<- | [<- | [<- | []]]]]; simpl; lia.
Defined.

Example random_walk_pe_example :
  AddRandomWalkPE.random_walk_pe 3
    (Instance.graph [(0, 1); (1, 0); (1, 1); (2, 0)])
  = Ok [[0; 1 # 2; 2 # 8]; [1 # 2; 6 # 8; 320 # 512]; [0; 0; 0]]%Q.
Proof. vm_compute. reflexivity. Qed.

(** ** C4: normalisation *)

Lemma minmax_normalises_witness :
  let x := [[1; 3]; [2; 5]]%Q in
  0 < np_size x /\ (np_min x < np_max x)%Q /\
  exists y : list (list Q),
    minmax x = map (map Fin) y /\ (np_min y == 0)%Q /\ (np_max y == 1)%Q.
Proof.
  intros x.
  assert (H1 : 0 < np_size x) by (vm_compute; lia).
  assert (H2 : (np_min x < np_max x)%Q) by reflexivity.
  split; [exact H1|]. split; [exact H2|].
  destruct (proj1 (minmax_normalises x) H1 H2) as [y [Hy [_ [Hmin Hmax]]]].
  exists y. repeat split; assumption.
Defined.

(** A block with one element, or with equal elements: the division is
    0 / 0, and the normalised block holds NaN, not 0 and 1. *)
Lemma minmax_constant_counterexample :
  0 < np_size [[1%Q]] /\
  minmax [[1%Q]] = [[NaN]] /\
  ~ exists y : list (list Q),
      minmax [[1%Q]] = map (map Fin) y /\ (np_min y == 0)%Q /\ (np_max y == 1)%Q.
Proof.
  split; [vm_compute; lia|]. split; [reflexivity|].
  intros [y [Hy _]]. vm_compute in Hy.
  destruct y as [|[|e r] y]; try discriminate.
Qed.

(** ** C7: the Laplacian transform *)

Lemma laplacian_call_spec_witness :
  let ei := [(0, 1); (1, 2); (2, 3); (3, 0)] in
  let data := Instance.graph ei in
  data_num_nodes data = Some 4 /\
  data_edge_index data = Some ei /\
  exists vals vecs pe w',
    Instance.eigs (Instance.get_laplacian ei 4) 2 SR = Ok (vals, vecs) /\
    length vals = 2 /\ length vecs = 4 /\
    Forall (fun r => length r = 2) vecs /\
    run_call 1 (Some "laplacian_eigenvector_pe"%string) false data Instance.world0
    = Ok (<["laplacian_eigenvector_pe"%string := ATensor pe]> data, w') /\
    length pe = 4 /\ Forall (fun r => length r = 1) pe.
Proof.
  intros ei data.
  assert (H1 : data_num_nodes data = Some 4) by reflexivity.
  assert (H2 : data_edge_index data = Some ei) by reflexivity.
  split; [exact H1|]. split; [exact H2|].
  destruct (Instance.eigs (Instance.get_laplacian ei 4) 2 SR)
    as [[vals vecs]|] eqn:Hs; [|discriminate].
  destruct (instance_eigs_shape _ _ _ _ _ Hs) as [Hvals Hvecs].
  assert (Hrows : length vecs = 4).
  { unfold Instance.eigs in Hs. injection Hs as _ <-. reflexivity. }
  destruct (laplacian_call_spec Instance.Laplacian Instance.get_laplacian
              Instance.eigs Instance.eigsh Instance.coin
              1 "laplacian_eigenvector_pe" false data Instance.world0 4 ei vals vecs
              H1 H2 Hs Hvals Hrows Hvecs)
    as [pe [w' [Hcall [_ [_ [_ [Hlen [Hwidth _]]]]]]]].
  exists vals, vecs, pe, w'. repeat split; assumption.
Defined.

Example laplacian_call_example :
  exists w',
    run_call 1 (Some "laplacian_eigenvector_pe"%string) false
      (Instance.graph [(0, 1); (1, 2); (2, 3); (3, 0)]) Instance.world0
    = Ok (<["laplacian_eigenvector_pe"%string := ATensor [[0]; [1]; [2]; [3]]%Q]>
            (Instance.graph [(0, 1); (1, 2); (2, 3); (3, 0)]), w') /\
    calls w' = [EvEigSolver false 2 SR; EvRandint 1].
Proof. eexists. split; vm_compute; reflexivity. Qed.

(** ** C9: what the encoders leave on the object *)

Lemma encoders_keep_graph_witness :
  let data := Instance.graph [(0, 1); (1, 0)] in
  let data2 := <["laplacian_eigenvector_pe"%string := ATensor [[1%Q]; [2%Q]]]> data in
  same_graph data data2 /\
  AddRandomWalkPE.random_walk_pe 2 data2 = AddRandomWalkPE.random_walk_pe 2 data.
Proof.
  intros data data2.
  assert (H : same_graph data data2) by (repeat split).
  split; [exact H|].
  exact (proj1 (encoders_keep_graph Instance.Laplacian Instance.get_laplacian
                  Instance.eigs Instance.eigsh Instance.coin
                  Instance.Node2Vec_init Instance.train_epoch data data2 H) 2).
Defined.

(** The spectral transform and the diffusion transform each return the
    object with one more attribute: it is not the object they were given. *)
Lemma encoders_change_data_counterexample :
  let data := Instance.graph [(0, 1); (1, 2); (2, 3); (3, 0)] in
  (exists d' w',
     run_call 1 laplacian_attr_name false data Instance.world0 = Ok (d', w') /\
     d' <> data) /\
  (exists d',
     AddRandomWalkPE.forward 1 AddRandomWalkPE.default_attr_name data = Ok d' /\
     d' <> data).
Proof.
  intros data. split.
  - do 2 eexists. split; [vm_compute; reflexivity|].
    intros H.
    apply (f_equal (fun m : gmap string attr => m !! "laplacian_eigenvector_pe"%string)) in H.
    vm_compute in H. discriminate H.
  - eexists. split; [vm_compute; reflexivity|].
    intros H.
    apply (f_equal (fun m : gmap string attr => m !! "random_walk_pe"%string)) in H.
    vm_compute in H. discriminate H.
Qed.

(** ** C3: the columns of the assembled matrix *)

Lemma compute_pos_enc_columns_witness :
  exists pe w',
    run_compute_pos_enc Instance.args_c4 1 2 2 false "cpu" Instance.world0
    = Ok (pe, w') /\
    Forall (fun r => Z.of_nat (length r) = (1 + 2)%Z) pe /\
    fs w' !! pe_path_from Instance.args_c4 = Some (TFloat pe).
Proof.
  destruct (run_compute_pos_enc Instance.args_c4 1 2 2 false "cpu" Instance.world0)
    as [[pe w']|] eqn:Hrun; [|vm_compute in Hrun; discriminate Hrun].
  exists pe, w'. split; [reflexivity|].
  destruct (compute_pos_enc_columns Instance.Laplacian Instance.get_laplacian
              Instance.eigs Instance.eigsh Instance.coin
              Instance.Node2Vec_init Instance.train_epoch
              instance_eigs_shape instance_init_shape instance_train_shape
              Instance.args_c4 1 2 2 false "cpu" Instance.world0 w' pe Hrun)
    as [A [w1 [d1 [w2 [pe_rw [w3 [sp [ln [w4 H]]]]]]]]].
  destruct H as [_ [_ [_ [_ [_ [_ [_ [_ [Hw Hfs]]]]]]]]].
  split; assumption.
Defined.

Example compute_pos_enc_example :
  exists w',
    run_compute_pos_enc Instance.args_c4 1 2 2 false "cpu" Instance.world0
    = Ok ([[Fin (0 # 3); Fin (0 # 7); Fin (1 # 7)];
           [Fin (1 # 3); Fin (2 # 7); Fin (3 # 7)];
           [Fin (2 # 3); Fin (4 # 7); Fin (5 # 7)];
           [Fin (3 # 3); Fin (6 # 7); Fin (7 # 7)]], w') /\
    calls w'
    = [EvReadParquet "g/adj_c4.parquet"; EvEigSolver false 2 SR; EvRandint 1;
       EvRandomWalk 2; EvNode2Vec 2; EvToParquet "g/pe_dim3_c4.parquet"].
Proof. eexists. split; vm_compute; reflexivity. Qed.

(** ** C8: the empty spectral block *)

(** C8, evaluated on a triangle given as an edge index. The graph has
    three nodes; for [le_size = 0] no solver is called, and the spectral
    block has the two rows of the edge-index table, not one row per node;
    with a learned block of three rows the concatenation raises. *)
Theorem spectral_block_rows_of_table :
  let A := transpose 0 Instance.triangle in
  let data := make_data (edge_index_of A) "cpu" in
  A = [[0; 1; 2]; [1; 2; 0]] /\
  data_num_nodes data = Some 3 /\
  run_spectral_block 0 A data Instance.world0
  = Ok (Some [[]; []], data, Instance.world0) /\
  run_compute_pos_enc Instance.args_tri 0 0 1 false "cpu" Instance.world0
  = Raise ValueError.
Proof. repeat split; vm_compute; reflexivity. Qed.

(** On a dense adjacency table the rows are the nodes, and the pipeline
    with [le_size = 0] returns without a solver call. *)
Example spectral_block_dense_example :
  exists w',
    run_compute_pos_enc (mkArgs "g/adj_p3.parquet" "" 1) 0 0 1 false "cpu"
      Instance.world0
    = Ok ([[Fin (0 # 2)]; [Fin (1 # 2)]; [Fin (2 # 2)]], w') /\
    existsb is_solver_call (calls w') = false.
Proof. eexists. split; vm_compute; reflexivity. Qed.

(** ** C2: the cache *)

Example pe_path_from_example :
  pe_path_from (mkArgs "data/run1/adj_499_full.parquet" "" 256)
  = "data/run1/pe_dim256_499_full.parquet"%string.
Proof. reflexivity. Qed.

Example pe_path_from_no_separator :
  pe_path_from (mkArgs "adj.parquet" "" 8) = "/pe_dim8_"%string.
Proof. reflexivity. Qed.

Lemma pos_enc_cache_witness :
  pe_path Instance.args_c4 = pe_path_from Instance.args_c4 /\
  exists pe w',
    run_pos_enc Instance.args_c4 1 2 2 false false "cpu" Instance.world0
    = Ok (pe, w') /\
    run_pos_enc Instance.args_c4 1 2 2 false true "cpu" w'
    = Ok (pe, log (EvReadParquet (pe_path Instance.args_c4)) w').
Proof.
  assert (Hp : pe_path Instance.args_c4 = pe_path_from Instance.args_c4)
    by reflexivity.
  split; [exact Hp|].
  destruct (run_pos_enc Instance.args_c4 1 2 2 false false "cpu" Instance.world0)
    as [[pe w']|] eqn:Hrun; [|vm_compute in Hrun; discriminate Hrun].
  exists pe, w'. split; [reflexivity|].
  exact (proj2 (proj2 (proj2
           (pos_enc_cache Instance.Laplacian Instance.get_laplacian
              Instance.eigs Instance.eigsh Instance.coin
              Instance.Node2Vec_init Instance.train_epoch
              Instance.args_c4 1 2 2 false "cpu" Instance.world0)))
           Hp false pe w' Hrun).
Defined.

(** [use_cached] is set and a table lies at the path derived from the
    adjacency path and the dimension, but [args.pe_path] names another
    path: [pos_enc] runs the encoders and returns another matrix. *)
Lemma pos_enc_derived_path_counterexample :
  path_exists (pe_path_from Instance.args_other) Instance.world1 = true /\
  exists pe w',
    run_pos_enc Instance.args_other 1 0 1 false true "cpu" Instance.world1
    = Ok (pe, w') /\
    fs Instance.world1 !! pe_path_from Instance.args_other <> Some (TFloat pe) /\
    existsb is_encoder_call (calls w') = true.
Proof.
  split; [vm_compute; reflexivity|].
  do 2 eexists. split; [vm_compute; reflexivity|].
  split; [vm_compute; discriminate | vm_compute; reflexivity].
Qed.

(** ** Further properties on concrete inputs *)

Lemma get_self_loop_attr_indicator_witness :
  let ei := [(0, 0); (0, 1); (2, 2); (5, 1)] in
  Forall (fun e : nat * nat => fst e = snd e -> fst e < 3) ei /\
  get_self_loop_attr ei None (Some 3) = Ok [1; 0; 1]%Q.
Proof.
  intros ei.
  assert (H : Forall (fun e : nat * nat => fst e = snd e -> fst e < 3) ei).
  { repeat (apply List.Forall_cons || apply List.Forall_nil); simpl; intros; lia. }
  split; [exact H|].
  destruct (get_self_loop_attr_indicator ei 3 H) as [v [Hv _]].
  rewrite Hv. vm_compute in Hv. symmetry. exact Hv.
Defined.


Lemma get_self_loop_attr_picks_one_witness :
  let ei := [(1, 1); (0, 1); (1, 1)] in
  let attr := [5; 7; 9]%Q in
  length attr = length ei /\
  Forall (fun e : nat * nat => fst e = snd e -> fst e < 2) ei /\
  exists v,
    get_self_loop_attr ei (Some attr) (Some 2) = Ok v /\
    (v !! 1 = Some 5%Q \/ v !! 1 = Some 9%Q) /\ v !! 0 = Some 0%Q.
Proof.
  intros ei attr.
  assert (H1 : length attr = length ei) by reflexivity.
  assert (H2 : Forall (fun e : nat * nat => fst e = snd e -> fst e < 2) ei).
  { repeat (apply List.Forall_cons || apply List.Forall_nil); simpl; intros; lia. }
  split; [exact H1|]. split; [exact H2|].
  destruct (get_self_loop_attr_picks_one ei attr 2 H1 H2) as [v [Hv [_ Hpick]]].
  exists v. split; [exact Hv|]. split.
  - destruct (Hpick 1 ltac:(lia)) as [[p [a [Hp [Ha Hva]]]] | [Hno _]].
    + destruct p as [|[|[|p]]]; simpl in Hp, Ha; try discriminate;
        injection Ha as <-; [left | right]; exact Hva.
    + exfalso. exact (Hno 0 eq_refl).
  - destruct (Hpick 0 ltac:(lia)) as [[p [a [Hp _]]] | [_ H0]]; [|exact H0].
    destruct p as [|[|[|p]]]; simpl in Hp; discriminate.
Defined.



Lemma random_walk_pe_probabilities_witness :
  let ei := [(0, 1); (1, 0); (1, 1); (2, 0)] in
  data_edge_index (Instance.graph ei) = Some ei /\
  data_edge_weight (Instance.graph ei) = None /\
  data_num_nodes (Instance.graph ei) = Some 3 /\
  Forall (fun e : nat * nat => fst e < 3 /\ snd e < 3) ei /\
  exists pe,
    AddRandomWalkPE.random_walk_pe 4 (Instance.graph ei) = Ok pe /\
    Forall (Forall (fun x => 0 <= x /\ x <= 1)%Q) pe.
Proof.
  intros ei.
  assert (H1 : data_edge_index (Instance.graph ei) = Some ei) by reflexivity.
  assert (H2 : data_edge_weight (Instance.graph ei) = None) by reflexivity.
  assert (H3 : data_num_nodes (Instance.graph ei) = Some 3) by reflexivity.
  assert (H4 : Forall (fun e : nat * nat => fst e < 3 /\ snd e < 3) ei)
    by (repeat constructor).
  repeat (split; [assumption|]).
  exact (random_walk_pe_probabilities 4 (Instance.graph ei) ei 3 H1 H2 H3 H4).
Defined.

Lemma minmax_constant_nan_witness :
  let x := [[2; 2]; [2; 2]]%Q in
  0 < np_size x /\ (np_min x == np_max x)%Q /\
  minmax x = [[NaN; NaN]; [NaN; NaN]].
Proof.
  intros x.
  assert (H1 : 0 < np_size x) by (vm_compute; lia).
  assert (H2 : (np_min x == np_max x)%Q) by reflexivity.
  split; [exact H1|]. split; [exact H2|].
  exact (minmax_constant_nan x H1 H2).
Defined.

Lemma minmax_increasing_witness :
  let x := [[1; 3]; [2; 5]]%Q in
  0 < np_size x /\ (np_min x < np_max x)%Q /\
  exists f : Q -> Q,
    minmax x = map (map (fun e => Fin (f e))) x /\ (f 2 < f 3)%Q.
Proof.
  intros x.
  assert (H1 : 0 < np_size x) by (vm_compute; lia).
  assert (H2 : (np_min x < np_max x)%Q) by reflexivity.
  split; [exact H1|]. split; [exact H2|].
  destruct (minmax_increasing x H1 H2) as [f [Hf [Hmono _]]].
  exists f. split; [exact Hf|]. apply Hmono. reflexivity.
Defined.

Lemma laplacian_call_sign_only_witness :
  let ei := [(0, 1); (1, 2); (2, 3); (3, 0)] in
  let data := Instance.graph ei in
  let w2 := mkWorld (fs Instance.world0) 1 [] in
  data_num_nodes data = Some 4 /\
  data_edge_index data = Some ei /\
  exists pe1 pe2 w1' w2',
    run_call 1 (Some "laplacian_eigenvector_pe"%string) false data Instance.world0
    = Ok (<["laplacian_eigenvector_pe"%string := ATensor pe1]> data, w1') /\
    run_call 1 (Some "laplacian_eigenvector_pe"%string) false data w2
    = Ok (<["laplacian_eigenvector_pe"%string := ATensor pe2]> data, w2') /\
    forall i, i < 4 -> (nth 0 (nth i pe1 []) 0 == nth 0 (nth i pe2 []) 0 * -1)%Q.
Proof.
  intros ei data w2.
  assert (H1 : data_num_nodes data = Some 4) by reflexivity.
  assert (H2 : data_edge_index data = Some ei) by reflexivity.
  split; [exact H1|]. split; [exact H2|].
  destruct (Instance.eigs (Instance.get_laplacian ei 4) 2 SR)
    as [[vals vecs]|] eqn:Hs; [|discriminate].
  destruct (instance_eigs_shape _ _ _ _ _ Hs) as [Hvals Hvecs].
  assert (Hrows : length vecs = 4).
  { unfold Instance.eigs in Hs. injection Hs as _ <-. reflexivity. }
  destruct (laplacian_call_sign_only Instance.Laplacian Instance.get_laplacian
              Instance.eigs Instance.eigsh Instance.coin
              1 "laplacian_eigenvector_pe" false data Instance.world0 w2 4 ei
              vals vecs H1 H2 Hs Hvals Hvecs)
    as [pe1 [pe2 [w1' [w2' [Hc1 [Hc2 Hsign]]]]]].
  exists pe1, pe2, w1', w2'. split; [exact Hc1|]. split; [exact Hc2|].
  intros i Hi. destruct (Hsign 0 ltac:(lia)) as [_ Hcol].
  rewrite Hrows in Hcol. exact (Hcol i Hi).
Defined.

Lemma compute_pos_enc_frame_witness :
  exists pe w',
    run_compute_pos_enc Instance.args_c4 1 2 2 false "cpu" Instance.world0
    = Ok (pe, w') /\
    fs w' = <[pe_path_from Instance.args_c4 := TFloat pe]> (fs Instance.world0) /\
    fs w' !! "g/adj_p3.parquet"%string = Some (TInt Instance.path3).
Proof.
  destruct (run_compute_pos_enc Instance.args_c4 1 2 2 false "cpu" Instance.world0)
    as [[pe w']|] eqn:Hrun; [|vm_compute in Hrun; discriminate Hrun].
  exists pe, w'. split; [reflexivity|].
  destruct (compute_pos_enc_frame Instance.Laplacian Instance.get_laplacian
              Instance.eigs Instance.eigsh Instance.coin
              Instance.Node2Vec_init Instance.train_epoch
              Instance.args_c4 1 2 2 false "cpu" Instance.world0 w' pe Hrun)
    as [Hfs [Hother _]].
  split; [exact Hfs|]. rewrite Hother by (vm_compute; discriminate).
  reflexivity.
Defined.

Lemma compute_pos_enc_rw_size_irrelevant_witness :
  exists pe w1 w2,
    run_compute_pos_enc Instance.args_c4 1 2 2 false "cpu" Instance.world0
    = Ok (pe, w1) /\
    run_compute_pos_enc Instance.args_c4 1 (-7) 2 false "cpu" Instance.world0
    = Ok (pe, w2) /\
    fs w2 = fs w1 /\ rng w2 = rng w1.
Proof.
  destruct (run_compute_pos_enc Instance.args_c4 1 2 2 false "cpu" Instance.world0)
    as [[pe w1]|] eqn:Hrun; [|vm_compute in Hrun; discriminate Hrun].
  destruct (compute_pos_enc_rw_size_irrelevant Instance.Laplacian
              Instance.get_laplacian Instance.eigs Instance.eigsh Instance.coin
              Instance.Node2Vec_init Instance.train_epoch
              Instance.args_c4 1 2 (-7) 2 false "cpu" Instance.world0 w1 pe Hrun)
    as [w2 [Hrun2 [Hfs Hrng]]].
  exists pe, w1, w2. repeat split; assumption.
Defined.

Lemma compute_pos_enc_negative_size_witness :
  (-1 < 0 \/ 2 < 0)%Z /\
  run_compute_pos_enc Instance.args_c4 (-1) 2 2 false "cpu" Instance.world0
  = Raise NameError.
Proof.
  assert (H : (-1 < 0 \/ 2 < 0)%Z) by (left; lia).
  split; [exact H|].
  destruct (run_compute_pos_enc Instance.args_c4 (-1) 2 2 false "cpu" Instance.world0)
    as [[pe w']|e] eqn:Hrun.
  - exfalso.
    exact (compute_pos_enc_negative_size Instance.Laplacian Instance.get_laplacian
             Instance.eigs Instance.eigsh Instance.coin
             Instance.Node2Vec_init Instance.train_epoch
             Instance.args_c4 (-1) 2 2 false "cpu" Instance.world0 H pe w' Hrun).
  - vm_compute in Hrun. exact (eq_sym Hrun).
Defined.

Lemma compute_pos_enc_failures_witness :
  let args := mkArgs "g/adj_missing.parquet" "" 1 in
  fs Instance.world0 !! adj_path args = None /\
  run_compute_pos_enc args 1 0 1 false "cpu" Instance.world0
  = Raise FileNotFoundError.
Proof.
  intros args.
  assert (H : fs Instance.world0 !! adj_path args = None) by reflexivity.
  split; [exact H|].
  exact (proj1 (compute_pos_enc_failures Instance.Laplacian Instance.get_laplacian
                  Instance.eigs Instance.eigsh Instance.coin
                  Instance.Node2Vec_init Instance.train_epoch
                  args 1 0 1 false "cpu" Instance.world0) H).
Defined.

Lemma pe_path_from_closed_form_witness :
  ~ In "/"%char (list_ascii_of_string "adj") /\
  ~ In "/"%char (list_ascii_of_string "499_full.parquet") /\
  ~ In "_"%char (list_ascii_of_string "adj") /\
  pe_path_from (mkArgs "data/run1/adj_499_full.parquet" "" 256)
  = "data/run1/pe_dim256_499_full.parquet"%string /\
  pe_path_from (mkArgs "data/run1/adj" "" 256) = "data/run1/pe_dim256_"%string.
Proof.
  assert (H1 : ~ In "/"%char (list_ascii_of_string "adj"))
    by (simpl; intuition discriminate).
  assert (H2 : ~ In "/"%char (list_ascii_of_string "499_full.parquet"))
    by (simpl; intuition discriminate).
  assert (H3 : ~ In "_"%char (list_ascii_of_string "adj"))
    by (simpl; intuition discriminate).
  repeat (split; [assumption|]).
  exact (pe_path_from_closed_form "data/run1" "adj" "499_full.parquet" "" 256
           H1 H2 H3).
Defined.

Lemma compute_pos_enc_keeps_source_witness :
  pe_path_from Instance.args_c4 <> adj_path Instance.args_c4 /\
  exists pe w',
    run_compute_pos_enc Instance.args_c4 1 2 2 false "cpu" Instance.world0
    = Ok (pe, w') /\
    fs w' !! adj_path Instance.args_c4 = Some (TInt Instance.cycle4).
Proof.
  destruct (compute_pos_enc_keeps_source Instance.Laplacian Instance.get_laplacian
              Instance.eigs Instance.eigsh Instance.coin
              Instance.Node2Vec_init Instance.train_epoch Instance.args_c4)
    as [Hne Hkeep].
  split; [exact Hne|].
  destruct (run_compute_pos_enc Instance.args_c4 1 2 2 false "cpu" Instance.world0)
    as [[pe w']|] eqn:Hrun; [|vm_compute in Hrun; discriminate Hrun].
  exists pe, w'. split; [reflexivity|].
  rewrite (Hkeep 1%Z 2%Z 2%Z false "cpu"%string Instance.world0 pe w' Hrun).
  reflexivity.
Defined.


Lemma get_attn_mask_spec_witness :
  let x := [[1; 2]; [0; 0]; [1; -1]]%Q in
  x !! 2 = Some [1; -1]%Q /\ (sum_list_Q [1; -1] == 0)%Q /\
  Transformer.get_attn_mask x
  = [[true; false; false]; [false; false; false]; [false; false; false]] /\
  forall j, nth j (nth 2 (Transformer.get_attn_mask x) []) false = false.
Proof.
  intros x.
  assert (H1 : x !! 2 = Some [1; -1]%Q) by reflexivity.
  assert (H2 : (sum_list_Q [1; -1] == 0)%Q) by reflexivity.
  split; [exact H1|]. split; [exact H2|]. split; [reflexivity|].
  intros j.
  exact (proj1 (proj2 (proj2 (proj2 (get_attn_mask_spec x))) 2 [1; -1]%Q H1 H2 j)).
Defined.

Lemma compute_pos_enc_edge_index_empty_block_witness :
  fs Instance.world0 !! adj_path Instance.args_tri = Some (TInt Instance.triangle) /\
  length (transpose 0 Instance.triangle) = 2 /\
  (0 < 1)%Z /\
  maybe_num_nodes (edge_index_of (transpose 0 Instance.triangle)) None <> 2 /\
  run_compute_pos_enc Instance.args_tri 0 0 1 false "cpu" Instance.world0
  = Raise ValueError.
Proof.
  assert (H1 : fs Instance.world0 !! adj_path Instance.args_tri
               = Some (TInt Instance.triangle)) by reflexivity.
  assert (H2 : length (transpose 0 Instance.triangle) = 2) by reflexivity.
  assert (H3 : (0 < 1)%Z) by lia.
  assert (H4 : maybe_num_nodes (edge_index_of (transpose 0 Instance.triangle)) None <> 2)
    by (vm_compute; lia).
  repeat (split; [assumption|]).
  destruct (run_compute_pos_enc Instance.args_tri 0 0 1 false "cpu" Instance.world0)
    as [[pe w']|e] eqn:Hrun.
  - exfalso.
    exact (compute_pos_enc_edge_index_empty_block Instance.Laplacian
             Instance.get_laplacian Instance.eigs Instance.eigsh Instance.coin
             Instance.Node2Vec_init Instance.train_epoch
             Instance.args_tri 0 1 false "cpu" Instance.world0 Instance.triangle
             H1 H2 H3 H4 pe w' Hrun).
  - vm_compute in Hrun. exact (eq_sym Hrun).
Defined.
